(** * lstm-text-generation/model_from_initials.js

    A shallow embedding of [sample] and [generateText] and the properties
    of the two functions that the specification of the text generator
    states.

    JavaScript numbers are binary64 floats ([PrimFloat.float]); character
    indices are integers ([Z]); arrays live in a heap of locations, so that
    aliasing between the caller's seed array and the generator's window is
    visible; everything the file imports (TensorFlow.js, the model, the
    text encoder, the callback, the random source) is a parameter.  What
    [sample] owes to the library is stated on an instance of that
    parameter which follows the library's documentation, in exact
    arithmetic. *)

From Stdlib Require Import ZArith Floats Ascii String Reals Lra.
From stdpp Require Import gmap strings list.

(** ** JavaScript numbers *)

Module JS.

(** The literal [1e-6] denotes the binary64 value nearest to 10^-6. *)
Definition lit_1e_6 : float := 0x1.0c6f7a0b5ed8dp-20%float.

(** [Math.max(x, y)] on two numbers: NaN if either argument is NaN,
    otherwise the larger one, where +0 counts as larger than -0. *)
Definition Math_max (x y : float) : float :=
  if is_nan x || is_nan y then nan
  else if (x <? y)%float then y
  else if (y <? x)%float then x
  else if get_sign x then y else x.

(** Reading [a[0]] of an array: [undefined] (here [None]) when it is empty. *)
Definition first {A : Type} (a : list A) : option A := a !! 0%nat.

(** [/\s/.test(s)]: some character of [s] is white space.  Characters are
    code units below 256; the white space among them is TAB, LF, VT, FF,
    CR, SPACE and NO-BREAK SPACE. *)
Definition is_space (c : ascii) : bool :=
  let n := nat_of_ascii c in
  ((9 <=? n)%nat && (n <=? 13)%nat) || (n =? 32)%nat || (n =? 160)%nat.

Fixpoint test_whitespace (s : string) : bool :=
  match s with
  | EmptyString => false
  | String c s' => is_space c || test_whitespace s'
  end.

End JS.

(** ** How a call ends *)

(** A call of the library returns a value or throws an error. *)
Inductive completion (A : Type) : Type :=
  | Normal (a : A)
  | Throw.

Arguments Normal {A} a.
Arguments Throw {A}.

(** A run of the generator returns a value, or lets an error of the
    library through (nothing in the file catches one), or is cut short
    because the fuel of a loop ran out. *)
Inductive outcome (A : Type) : Type :=
  | Returned (a : A)
  | Thrown
  | OutOfFuel.

Arguments Returned {A} a.
Arguments Thrown {A}.
Arguments OutOfFuel {A}.

(** ** TensorFlow.js, as far as this file uses it

    The library is imported, not part of the repository: its kernels are
    the fields of a record.  A rank-1 tensor is the list of its entries;
    [tf.log] and [tf.div] by a number act entry by entry, which is how the
    library documents them. *)

Record TFjs : Type := {
  (** what one position of a tensor holds *)
  entry : Type;
  (** the state outside this file: the random source behind [Math.random],
      whatever the model and the callback keep *)
  world : Type;
  (** a JavaScript number turned into a tensor entry *)
  scalar : float → entry;
  log_entry : entry → entry;
  div_entry : entry → entry → entry;
  (** the kernel of [tf.multinomial(logits, numSamples, seed, normalized)],
      read with [dataSync()]: the drawn indices, and the random source
      after the draw *)
  multinomial : list entry → nat → option float → bool → world → list Z * world;
  (** tensors of any rank, as the model takes and returns them *)
  tensor : Type;
  (** [tf.TensorBuffer]: created with a shape, written with [set] *)
  buffer : Type;
  TensorBuffer : list nat → buffer;
  buffer_set : buffer → float → nat → nat → option Z → buffer;
  toTensor : buffer → tensor;
  (** [tf.squeeze] of a model output, as a rank-1 tensor *)
  squeeze : tensor → list entry
}.

Section Sampler.

Context {tf : TFjs}.

Definition tf_log (x : list (entry tf)) : list (entry tf) :=
  log_entry tf <$> x.

Definition tf_div (x : list (entry tf)) (y : float) : list (entry tf) :=
  (λ a, div_entry tf a (scalar tf y)) <$> x.

(** [tf.multinomial]: the operation refuses fewer than two outcomes
    ("you need at least 2 outcomes") before it reads the random source,
    and runs the kernel otherwise. *)
Definition tf_multinomial (logits : list (entry tf)) (numSamples : nat)
    (seed : option float) (normalized : bool) (w : world tf)
    : completion (list Z) * world tf :=
  if (length logits <? 2)%nat then (Throw, w)
  else let '(data, w') := multinomial tf logits numSamples seed normalized w in
       (Normal data, w').

(** [sample(probs, temperature)], lines 96-104.  [tf.tidy] only frees the
    intermediate tensors and hands on the value of its callback, or the
    error it throws. *)
Definition sample (probs : list (entry tf)) (temperature : float)
    (w : world tf) : completion (option Z) * world tf :=
  let logits := tf_div (tf_log probs) (JS.Math_max temperature JS.lit_1e_6) in
  let isNormalized := false in
  match tf_multinomial logits 1 None isNormalized w with
  | (Normal data, w') => (Normal (JS.first data), w')
  | (Throw, w') => (Throw, w')
  end.

End Sampler.

(** ** Arrays, the heap and the log *)

(** An array entry of [sentenceIndices]: a character index, or
    [undefined] ([None]). *)
Abbreviation elem := (option Z).

(** Arrays are objects: a variable holds a location. *)
Abbreviation loc := positive.

(** What a run does, in order.  The log is not part of the program: it
    records the calls that leave the function and the updates of its two
    local variables, so that their order can be stated. *)
Inductive event (tf : TFjs) : Type :=
  | EPredict (input : tensor tf)      (* [model.predict(input)] *)
  | ESample (winnerIndex : elem)      (* [sample(...)] drew this index *)
  | EOnChar (winnerChar : string)     (* [await onTextGenerationChar(winnerChar)] *)
  | EAppend (s : string)              (* [generated += s] *)
  | EShift (before : list elem) (newest : elem) (after : list elem).
                                      (* [slice(1)] then [push(newest)] *)

Arguments EPredict {tf} input.
Arguments ESample {tf} winnerIndex.
Arguments EOnChar {tf} winnerChar.
Arguments EAppend {tf} s.
Arguments EShift {tf} before newest after.

Record config (tf : TFjs) : Type := Config {
  heap : gmap loc (list elem);
  ext : world tf
}.

Arguments Config {tf} heap ext.
Arguments heap {tf} c.
Arguments ext {tf} c.

Section Monad.

Context {tf : TFjs}.

(** A computation reads and updates the heap and the outside world, logs
    events, and ends as an [outcome] says: with a value, with an error, or
    cut short. *)
Definition M (A : Type) : Type :=
  config tf → outcome A * config tf * list (event tf).

Definition ret {A : Type} (a : A) : M A := λ σ, (Returned a, σ, []).

Definition bind {A B : Type} (m : M A) (k : A → M B) : M B := λ σ,
  match m σ with
  | (Returned a, σ1, t1) => let '(b, σ2, t2) := k a σ1 in (b, σ2, t1 ++ t2)
  | (Thrown, σ1, t1) => (Thrown, σ1, t1)
  | (OutOfFuel, σ1, t1) => (OutOfFuel, σ1, t1)
  end.

Definition out_of_fuel {A : Type} : M A := λ σ, (OutOfFuel, σ, []).

Definition emit (e : event tf) : M unit := λ σ, (Returned (), σ, [e]).

(** A call that leaves the file: it sees and changes the outside world only. *)
Definition call {A : Type} (f : world tf → A * world tf) : M A := λ σ,
  let '(a, w) := f (ext σ) in (Returned a, Config (heap σ) w, []).

(** The same for a call that can throw: the error is not caught here. *)
Definition call_throwing {A : Type} (f : world tf → completion A * world tf)
    : M A := λ σ,
  match f (ext σ) with
  | (Normal a, w) => (Returned a, Config (heap σ) w, [])
  | (Throw, w) => (Thrown, Config (heap σ) w, [])
  end.

(** [await promise]: the caller goes on only when the promise has
    settled, that is when the work it stands for is done. *)
Definition await (promise : world tf → world tf) : M unit :=
  call (λ w, ((), promise w)).

(** The contents of an array. *)
Definition contents (a : loc) : M (list elem) := λ σ,
  (Returned (heap σ !!! a), σ, []).

(** [a.slice(start)]: a new array with the entries of [a] from [start] on. *)
Definition Array_slice (a : loc) (start : nat) : M loc := λ σ,
  let a' := fresh (dom (heap σ)) in
  (Returned a', Config (<[a' := drop start (heap σ !!! a)]> (heap σ)) (ext σ), []).

(** [a.push(x)]: [a] itself grows by one entry. *)
Definition Array_push (a : loc) (x : elem) : M unit := λ σ,
  (Returned (), Config (<[a := heap σ !!! a ++ [x]]> (heap σ)) (ext σ), []).

End Monad.

Arguments M : clear implicits.

Global Instance M_ret {tf : TFjs} : MRet (M tf) := @ret tf.
Global Instance M_bind {tf : TFjs} : MBind (M tf) := λ A B k m, bind m k.

(** ** The generator *)

(** The model: [model.inputs[0].shape] is [[null, sampleLen, charSetSize]],
    and [predict] maps an input tensor to an output tensor. *)
Record Model (tf : TFjs) : Type := {
  sampleLen : nat;
  charSetSize : nat;
  predict : tensor tf → world tf → tensor tf * world tf
}.

Arguments sampleLen {tf} m.
Arguments charSetSize {tf} m.
Arguments predict {tf} m input w.

(** The callback [onTextGenerationChar]: called on a character, it acts
    on the outside world and returns a promise; the promise stands for the
    work still to be done when the call returns, as a change of the world. *)
Definition callback (tf : TFjs) : Type :=
  string → world tf → (world tf → world tf) * world tf.

(** The text encoder of [./data]: characters to indices and back. *)
Record TextData : Type := {
  textToIndices : string → list Z;
  getFromCharSet : elem → string
}.

(** ** A backend to run the generator on

    The random source is a tape of the indices still to be drawn, so the
    numeric kernels are stand-ins; the model hands its input on; the
    callback writes what it receives to a sink. *)

Module Fixture.

Definition tape : TFjs := {|
  entry := float;
  world := list Z * list string;
  scalar := λ x, x;
  log_entry := λ x, x;
  div_entry := PrimFloat.div;
  multinomial := λ logits numSamples seed normalized w,
    match w.1 with
    | [] => ([], w)
    | i :: draws => ([i], (draws, w.2))
    end;
  tensor := list elem;
  buffer := list elem;
  TensorBuffer := λ shape, [];
  buffer_set := λ buf v b j k, buf ++ [k];
  toTensor := λ buf, buf;
  squeeze := λ t, (λ _, 1%float) <$> t
|}.

Definition model : Model tape := {|
  sampleLen := 3;
  charSetSize := 5;
  predict := λ input w, (input, w)
|}.

(** The character set is [h], [w], [i], space, line feed. *)
Definition charSet : list string := ["h"; "w"; "i"; " "; String "010" ""].

Definition index_of (c : string) : list Z :=
  omap (λ p, if String.eqb p.2 c then Some (Z.of_nat p.1) else None)
    (imap pair charSet).

Definition textData : TextData := {|
  textToIndices := index_of;
  getFromCharSet := λ i,
    match i with
    | Some z =>
        if (z <? 0)%Z then "undefined"
        else default "undefined" (charSet !! Z.to_nat z)
    | None => "undefined"
    end
|}.

(** The callback returns at once; the work of its promise is to write
    the character to the sink. *)
Definition onChar : callback tape :=
  λ c w, (λ w', (w'.1, w'.2 ++ [c]), w).

(** The caller's heap: the seed array [[0, 1, 2]] at location 1. *)
Definition start (draws : list Z) : config tape :=
  @Config tape (<[1%positive := [Some 0; Some 1; Some 2]%Z]> ∅) (draws, []).

End Fixture.

(** ** TensorFlow.js in exact arithmetic

    Modelled from the documentation of TensorFlow.js and, for what the
    documentation leaves open (NaN, the infinities, how an index is drawn),
    from its CPU kernels.  Tensor entries are real numbers, the two
    infinities and NaN, with the arithmetic of IEEE 754 on the special
    values; the rounding of the library's 32-bit floats is left out, and
    zero has no sign. *)

Module Number.

Inductive number : Type :=
  | Finite (x : R)
  | PInf
  | NInf
  | NaN.

(** A JavaScript number as a tensor entry. *)
Definition of_float (x : float) : number :=
  match Prim2SF x with
  | S754_zero _ => Finite 0
  | S754_infinity s => if s then NInf else PInf
  | S754_nan => NaN
  | S754_finite s m e =>
      Finite (IZR (if s then Z.neg m else Z.pos m) * powerRZ 2 e)
  end.

Definition is_nan (a : number) : bool :=
  match a with
  | NaN => true
  | _ => false
  end.

(** [a < b]; [false] when either is NaN. *)
Definition ltb (a b : number) : bool :=
  match a, b with
  | NaN, _ | _, NaN => false
  | Finite x, Finite y => if Rlt_dec x y then true else false
  | Finite _, PInf => true
  | Finite _, NInf => false
  | PInf, _ => false
  | NInf, NInf => false
  | NInf, _ => true
  end.

(** The natural logarithm: [-Infinity] at zero, NaN below. *)
Definition log (a : number) : number :=
  match a with
  | Finite x =>
      if Rlt_dec x 0 then NaN
      else if Rlt_dec 0 x then Finite (ln x)
      else NInf
  | PInf => PInf
  | NInf => NaN
  | NaN => NaN
  end.

Definition add (a b : number) : number :=
  match a, b with
  | NaN, _ | _, NaN => NaN
  | Finite x, Finite y => Finite (x + y)
  | PInf, NInf | NInf, PInf => NaN
  | PInf, _ | _, PInf => PInf
  | NInf, _ | _, NInf => NInf
  end.

Definition sub (a b : number) : number :=
  match a, b with
  | NaN, _ | _, NaN => NaN
  | Finite x, Finite y => Finite (x - y)
  | PInf, PInf | NInf, NInf => NaN
  | PInf, _ | _, NInf => PInf
  | NInf, _ | _, PInf => NInf
  end.

Definition div (a b : number) : number :=
  match a, b with
  | NaN, _ | _, NaN => NaN
  | Finite x, Finite y =>
      if Req_dec_T y 0 then
        if Rlt_dec 0 x then PInf else if Rlt_dec x 0 then NInf else NaN
      else Finite (x / y)
  | Finite _, (PInf | NInf) => Finite 0
  | PInf, Finite y => if Rlt_dec y 0 then NInf else PInf
  | NInf, Finite y => if Rlt_dec y 0 then PInf else NInf
  | (PInf | NInf), (PInf | NInf) => NaN
  end.

Definition exp (a : number) : number :=
  match a with
  | Finite x => Finite (Rtrigo_def.exp x)
  | PInf => PInf
  | NInf => Finite 0
  | NaN => NaN
  end.

End Number.

Module Exact.

Import Number.

(** [tf.max] over all entries: the scan keeps the largest entry seen, and
    a NaN once it has met one. *)
Definition max (x : list number) : number :=
  match x with
  | [] => NInf
  | a :: x' => foldl (λ m v, if is_nan v || ltb m v then v else m) a x'
  end.

(** [tf.sum] over all entries. *)
Definition sum (x : list number) : number := foldl add (Finite 0) x.

(** [tf.softmax]: the exponentials of the logits less their maximum, over
    the sum of these exponentials. *)
Definition softmax (logits : list number) : list number :=
  let m := max logits in
  let e := (λ a, exp (sub a m)) <$> logits in
  let s := sum e in
  (λ a, div a s) <$> e.

(** The running sums of [p], from [acc]. *)
Fixpoint running (acc : number) (p : list number) : list number :=
  match p with
  | [] => []
  | a :: p' => add acc a :: running (add acc a) p'
  end.

(** The cumulated probabilities of all events but the last. *)
Definition cdf (probabilities : list number) : list number :=
  running (Finite 0) (take (length probabilities - 1) probabilities).

(** The first event whose cumulated probability is above [r], counting
    from [event]; [last] if there is none. *)
Fixpoint first_above (r : R) (cdf : list number) (event last : nat) : nat :=
  match cdf with
  | [] => last
  | c :: cdf' =>
      if ltb (Finite r) c then event else first_above r cdf' (S event) last
  end.

(** One draw: the last event is the one that happens when no other does. *)
Definition draw (probabilities : list number) (r : R) : nat :=
  first_above r (cdf probabilities) 0 (length (cdf probabilities)).

(** The seed a draw uses: the one given, or the next value of
    [Math.random] when none is given or the one given is falsy. *)
Definition seed_of (seed : option float) (w : nat → float)
    : float * (nat → float) :=
  match seed with
  | Some x =>
      if PrimFloat.is_nan x || PrimFloat.is_zero x then (w 0%nat, λ n, w (S n))
      else (x, w)
  | None => (w 0%nat, λ n, w (S n))
  end.

Section Backend.

(** The random number generator of the library: [alea seed] is the
    sequence of numbers, each in [[0, 1)], that the generator seeded with
    [seed] gives. *)
Variable alea : float → nat → R.

(** The kernel of [tf.multinomial] on one row of logits: the softmax of
    the logits unless they are given as normalized, then [numSamples]
    draws with the successive numbers of one generator. *)
Definition Multinomial (logits : list number) (numSamples : nat)
    (seed : option float) (normalized : bool) (w : nat → float)
    : list Z * (nat → float) :=
  let probabilities := if normalized then logits else softmax logits in
  let '(seed, w') := seed_of seed w in
  let random := alea seed in
  ((λ sampleId, Z.of_nat (draw probabilities (random sampleId)))
     <$> seq 0 numSamples, w').

(** A tensor is the list of its entries, row by row; a buffer keeps its
    shape to place an entry.  Writing outside the buffer does nothing. *)
Definition backend : TFjs := {|
  entry := number;
  world := nat → float;
  scalar := of_float;
  log_entry := log;
  div_entry := div;
  multinomial := Multinomial;
  tensor := list number;
  buffer := list nat * list number;
  TensorBuffer := λ shape, (shape, replicate (foldr Nat.mul 1%nat shape) (Finite 0));
  buffer_set := λ buf v b j k,
    match k with
    | Some k =>
        let rows := default 0%nat (buf.1 !! 1%nat) in
        let columns := default 0%nat (buf.1 !! 2%nat) in
        let index := (Z.of_nat ((b * rows + j) * columns) + k)%Z in
        if (index <? 0)%Z then buf
        else (buf.1, <[Z.to_nat index := of_float v]> buf.2)
    | None => buf
    end;
  toTensor := λ buf, buf.2;
  squeeze := λ t, t
|}.

End Backend.

(** ** The distribution of a draw

    What the documentation promises of a draw on unnormalized
    log-probabilities [ln p / d]: outcome [i] has the weight [p_i^(1/d)],
    no weight when [p_i] is zero. *)






End Exact.

Section Generator.

Context {tf : TFjs}.
Variable model : Model tf.
Variable textData : TextData.
Variable temperature : float.
(** [null] is [None]. *)
Variable onTextGenerationChar : option (callback tf).

(** Lines 54-60: the one-hot encoding of the window; row [j] is set at
    column [sentenceIndices[j]]. *)
Definition one_hot (sentenceIndices : list elem) : tensor tf :=
  let inputBuffer :=
    TensorBuffer tf [1%nat; sampleLen model; charSetSize model] in
  toTensor tf
    (foldl (λ buf j, buffer_set tf buf 1 0 j (mjoin (sentenceIndices !! j)))
       inputBuffer (seq 0 (sampleLen model))).

(** [generated += s] *)
Definition append (generated s : string) : M tf string :=
  emit (EAppend s);; mret (generated +:+ s).

(** Lines 48-49 and 74-75:
    [sentenceIndices = sentenceIndices.slice(1); sentenceIndices.push(newest)] *)
Definition shift (sentenceIndices : loc) (newest : elem) : M tf loc :=
  before ← contents sentenceIndices;
  sentenceIndices ← Array_slice sentenceIndices 1;
  Array_push sentenceIndices newest;;
  after ← contents sentenceIndices;
  emit (EShift before newest after);;
  mret sentenceIndices.

(** Lines 53-79, the body of the [do ... while]. *)
Definition iteration (generated : string) (sentenceIndices : loc)
    : M tf (string * loc * string) :=
  window ← contents sentenceIndices;
  let input := one_hot window in
  emit (EPredict input);;
  output ← call (predict model input);
  winnerIndex ← call_throwing (sample (squeeze tf output) temperature);
  emit (ESample winnerIndex);;
  let winnerChar := getFromCharSet textData winnerIndex in
  match onTextGenerationChar with
  | Some f =>
      emit (EOnChar winnerChar);;
      promise ← call (f winnerChar);
      await promise
  | None => mret ()
  end;;
  generated ← append generated winnerChar;
  sentenceIndices ← shift sentenceIndices winnerIndex;
  mret (generated, sentenceIndices, winnerChar).

(** Lines 52-80: the body runs, and runs again while [winnerChar] holds
    no white space. *)
Fixpoint do_while (fuel : nat) (generated : string) (sentenceIndices : loc)
    : M tf (string * loc) :=
  match fuel with
  | O => out_of_fuel
  | S fuel' =>
      r ← iteration generated sentenceIndices;
      let '(generated, sentenceIndices, winnerChar) := r in
      if negb (JS.test_whitespace winnerChar)
      then do_while fuel' generated sentenceIndices
      else mret (generated, sentenceIndices)
  end.

(** Lines 45-81: the [for] loop at index [i], [rest] being
    [initialLetters] from [i] on. *)
Fixpoint for_loop (fuel : nat) (i : nat) (rest : list string)
    (generated : string) (sentenceIndices : loc) : M tf string :=
  match rest with
  | [] => mret generated
  | letter :: rest' =>
      generated ← (if (0 <? i)%nat then append generated " "
                   else mret generated);
      generated ← append generated letter;
      sentenceIndices ←
        shift sentenceIndices (JS.first (textToIndices textData letter));
      r ← do_while fuel generated sentenceIndices;
      for_loop fuel (S i) rest' r.1 r.2
  end.

(** [generateText(model, textData, sentenceIndices, initialLetters,
    temperature, onTextGenerationChar)], lines 35-83.  [fuel] bounds the
    iterations of each [do ... while]. *)
Definition generateText (fuel : nat) (sentenceIndices : loc)
    (initialLetters : list string) : M tf string :=
  sentenceIndices ← Array_slice sentenceIndices 0;
  for_loop fuel 0 initialLetters "" sentenceIndices.

(** ** A run without the heap

    The same run told over the window's contents instead of its location:
    the proofs below relate each loop to its counterpart here once, and
    read the claims off these functions. *)

Definition shifted (window : list elem) (newest : elem) : list elem :=
  drop 1 window ++ [newest].

Definition winner (window : list elem) (w : world tf)
    : completion elem * world tf :=
  let '(output, w1) := predict model (one_hot window) w in
  sample (squeeze tf output) temperature w1.

Definition called (winnerChar : string) (w : world tf) : world tf :=
  match onTextGenerationChar with
  | Some f => let '(promise, w1) := f winnerChar w in promise w1
  | None => w
  end.

Definition iteration_log (window : list elem) (winnerIndex : elem)
    : list (event tf) :=
  let winnerChar := getFromCharSet textData winnerIndex in
  [EPredict (one_hot window); ESample winnerIndex]
  ++ match onTextGenerationChar with
     | Some _ => [EOnChar winnerChar]
     | None => []
     end
  ++ [EAppend winnerChar; EShift window winnerIndex (shifted window winnerIndex)].

Fixpoint word (fuel : nat) (generated : string) (window : list elem)
    (w : world tf) : outcome (string * list elem) * world tf * list (event tf) :=
  match fuel with
  | O => (OutOfFuel, w, [])
  | S fuel' =>
      match winner window w with
      | (Normal winnerIndex, w1) =>
          let winnerChar := getFromCharSet textData winnerIndex in
          let w2 := called winnerChar w1 in
          let t := iteration_log window winnerIndex in
          if negb (JS.test_whitespace winnerChar) then
            let '(r, w3, t') :=
              word fuel' (generated +:+ winnerChar)
                (shifted window winnerIndex) w2
            in (r, w3, t ++ t')
          else
            (Returned (generated +:+ winnerChar, shifted window winnerIndex),
             w2, t)
      | (Throw, w1) => (Thrown, w1, [EPredict (one_hot window)])
      end
  end.

Definition letter_log (i : nat) (letter : string) (window : list elem)
    : list (event tf) :=
  (if (0 <? i)%nat then [EAppend " "] else [])
  ++ [EAppend letter;
      EShift window (JS.first (textToIndices textData letter))
        (shifted window (JS.first (textToIndices textData letter)))].

Fixpoint words (fuel : nat) (i : nat) (rest : list string)
    (generated : string) (window : list elem) (w : world tf)
    : outcome string * world tf * list (event tf) :=
  match rest with
  | [] => (Returned generated, w, [])
  | letter :: rest' =>
      let generated := if (0 <? i)%nat then generated +:+ " " else generated in
      let generated := generated +:+ letter in
      let window' := shifted window (JS.first (textToIndices textData letter)) in
      match word fuel generated window' w with
      | (Returned (generated, window''), w1, t) =>
          let '(r, w2, t') := words fuel (S i) rest' generated window'' w1 in
          (r, w2, letter_log i letter window ++ t ++ t')
      | (Thrown, w1, t) => (Thrown, w1, letter_log i letter window ++ t)
      | (OutOfFuel, w1, t) => (OutOfFuel, w1, letter_log i letter window ++ t)
      end
  end.

(** What the log of a run that threw shows after its last complete step:
    the call of the model whose output [sample] refused. *)
Definition thrown_tail {A : Type} (r : outcome A) (window : list elem)
    : list (event tf) :=
  match r with
  | Thrown => [EPredict (one_hot window)]
  | _ => []
  end.

(** ** Reading the log *)

(** The indices drawn, the characters handed to the callback and the
    inputs given to the model, each in the order of the run. *)
Definition samples (t : list (event tf)) : list elem :=
  omap (λ e, match e with ESample i => Some i | _ => None end) t.

Definition calls (t : list (event tf)) : list string :=
  omap (λ e, match e with EOnChar c => Some c | _ => None end) t.

Definition predicts (t : list (event tf)) : list (tensor tf) :=
  omap (λ e, match e with EPredict x => Some x | _ => None end) t.





(** The characters generated in a stretch of the log, in one string. *)
Fixpoint text (drawn : list elem) : string :=
  match drawn with
  | [] => ""
  | i :: drawn' => getFromCharSet textData i +:+ text drawn'
  end.

(** How many space characters (U+0020) a string holds. *)
Fixpoint spaces (s : string) : nat :=
  match s with
  | EmptyString => 0
  | String c s' => (if Ascii.eqb c " " then 1 else 0) + spaces s'
  end.

(** The callback is invoked on [c] once [c] has been appended: before the
    invocation, and after the latest draw, the log shows the append. *)
Definition called_after_append (t : list (event tf)) : Prop :=
  ∀ pre c post, t = pre ++ EOnChar c :: post →
    ∃ pre' mid, pre = pre' ++ EAppend c :: mid ∧ samples mid = [].

(** What the code does instead: the invocation on [c] stands right after
    the draw of [c] and right before the append of [c] and the shift. *)
Definition called_before_append (t : list (event tf)) : Prop :=
  ∀ pre c post, t = pre ++ EOnChar c :: post →
    (∃ pre' i, pre = pre' ++ [ESample i] ∧ c = getFromCharSet textData i)
    ∧ ∃ before newest after post',
        post = EAppend c :: EShift before newest after :: post'.

(** Every shift of the window drops the oldest entry, appends the newest,
    and leaves a window of [n] entries as it found one. *)
Definition shifts_keep_length (n : nat) (t : list (event tf)) : Prop :=
  ∀ before newest after, EShift before newest after ∈ t →
    after = drop 1 before ++ [newest] ∧ length before = n ∧ length after = n.

(** [out] starts with the initial letter [a], and exactly one space stands
    between it and the next initial letter [b]. *)
Definition one_space_between (a b out : string) : Prop :=
  ∃ g1 g2, out = a +:+ g1 +:+ " " +:+ b +:+ g2 ∧ spaces g1 = 0.

(** ** The outside world along a log

    The calls that a log shows, made again one after the other: the model
    on each input, [sample] on the model's latest output, the callback on
    each character, where the promise it returns is settled, so its work
    done, before the next event.  The state is the latest output of the
    model, if any, and the outside world. *)

Definition replay_event (s : option (tensor tf) * world tf) (e : event tf)
    : option (tensor tf) * world tf :=
  match e with
  | EPredict input =>
      let '(output, w) := predict model input s.2 in (Some output, w)
  | ESample _ =>
      match s.1 with
      | Some output => (s.1, (sample (squeeze tf output) temperature s.2).2)
      | None => s
      end
  | EOnChar c =>
      match onTextGenerationChar with
      | Some f => let '(promise, w) := f c s.2 in (s.1, promise w)
      | None => s
      end
  | EAppend _ | EShift _ _ _ => s
  end.

Definition replay (t : list (event tf)) (s : option (tensor tf) * world tf)
    : option (tensor tf) * world tf :=
  foldl replay_event s t.

(** Every draw that the log [t] shows after a call of the model is the
    index that [sample] returns on the output of that call, in the outside
    world as the events before it, replayed from [s], have left it. *)
Definition draws_replayed (s : option (tensor tf) * world tf)
    (t : list (event tf)) : Prop :=
  ∀ pre input i post, t = pre ++ EPredict input :: ESample i :: post →
    let called_model := predict model input (replay pre s).2 in
    (sample (squeeze tf called_model.1) temperature called_model.2).1 = Normal i.

Definition starts_with_draw (t : list (event tf)) : Prop :=
  ∃ i t', t = ESample i :: t'.

(** ** Words and windows *)

(** The entries pushed on the window, in the order of the run. *)
Definition pushed (t : list (event tf)) : list elem :=
  omap (λ e, match e with EShift _ x _ => Some x | _ => None end) t.

(** The draws of one run of the inner loop that ended: one or more, of
    which the last, and only the last, gives a character with white space. *)
Fixpoint is_word (drawn : list elem) : bool :=
  match drawn with
  | [] => false
  | i :: drawn' =>
      match drawn' with
      | [] => JS.test_whitespace (getFromCharSet textData i)
      | _ :: _ => negb (JS.test_whitespace (getFromCharSet textData i))
                  && is_word drawn'
      end
  end.

(** Draws that all give characters without white space. *)
Definition unbroken (drawn : list elem) : bool :=
  forallb (λ i, negb (JS.test_whitespace (getFromCharSet textData i))) drawn.

(** What the letters from index [i] on and the words drawn for them add
    to [generated]. *)
Fixpoint segments (i : nat) (letters : list string) (ds : list (list elem))
    : string :=
  match letters, ds with
  | letter :: letters', d :: ds' =>
      (if (0 <? i)%nat then " " else "") +:+ letter +:+ text d
      +:+ segments (S i) letters' ds'
  | _, _ => ""
  end.

(** What the letters and the words drawn for them push on the window. *)
Fixpoint pushes (letters : list string) (ds : list (list elem)) : list elem :=
  match letters, ds with
  | letter :: letters', d :: ds' =>
      JS.first (textToIndices textData letter) :: d ++ pushes letters' ds'
  | _, _ => []
  end.

(** The entries of [seed] followed by [xs], without the first [length xs]. *)
Definition slide (seed xs : list elem) : list elem :=
  drop (length xs) (seed ++ xs).

(** From [window], the stretch [t] gives the model the window as the
    pushes before each call have made it, and leaves [window']. *)
Definition tracks (window : list elem) (t : list (event tf))
    (window' : list elem) : Prop :=
  window' = foldl shifted window (pushed t)
  ∧ ∀ pre input post, t = pre ++ EPredict input :: post →
      input = one_hot (foldl shifted window (pushed pre)).

(** ** The heap version runs as the unfolded one *)

Lemma fresh_lookup (h : gmap loc (list elem)) : h !! fresh (dom h) = None.
Proof. apply not_elem_of_dom, is_fresh. Qed.

Lemma alloc_subseteq (h : gmap loc (list elem)) (a : list elem) :
  h ⊆ <[fresh (dom h) := a]> h.
Proof. apply insert_subseteq, fresh_lookup. Qed.

(** [push] changes the array it is called on, for every variable that
    holds it; [slice] leaves its array alone and returns another one. *)
Lemma Array_push_in_place (l : loc) (x : elem) (σ : config tf) :
  heap (Array_push l x σ).1.2 !!! l = heap σ !!! l ++ [x].
Proof. apply lookup_total_insert_eq. Qed.

Lemma Array_slice_copy (l : loc) (start : nat) (σ : config tf) (a : list elem) :
  heap σ !! l = Some a →
  (Array_slice l start σ).1.1 ≠ Returned l
  ∧ heap (Array_slice l start σ).1.2 !! l = Some a.
Proof.
  intros Hl. cbn. split.
  - intros [= Heq]. pose proof (fresh_lookup (heap σ)) as Hf. congruence.
  - rewrite lookup_insert_ne; [done|]. intros Heq.
    pose proof (fresh_lookup (heap σ)) as Hf. congruence.
Qed.

Lemma bind_some {A B : Type} (m : M tf A) (k : A → M tf B)
    (σ σ1 : config tf) (a : A) (t1 : list (event tf)) :
  m σ = (Returned a, σ1, t1) →
  (m ≫= k) σ = let '(b, σ2, t2) := k a σ1 in (b, σ2, t1 ++ t2).
Proof. unfold mbind, M_bind, bind. by intros ->. Qed.

Lemma bind_assoc_run {A B C : Type} (m : M tf A) (k : A → M tf B)
    (k' : B → M tf C) (σ : config tf) :
  ((m ≫= k) ≫= k') σ = (m ≫= (λ a, k a ≫= k')) σ.
Proof.
  unfold mbind, M_bind, bind. destruct (m σ) as [[[a| |] σ1] t1]; [|done..].
  destruct (k a σ1) as [[[b| |] σ2] t2]; [|done..].
  destruct (k' b σ2) as [[c σ3] t3]. by rewrite app_assoc.
Qed.

Lemma shift_eq (l : loc) (x : elem) (σ : config tf) :
  shift l x σ =
    (Returned (fresh (dom (heap σ))),
     Config (<[fresh (dom (heap σ)) := shifted (heap σ !!! l) x]> (heap σ)) (ext σ),
     [EShift (heap σ !!! l) x (shifted (heap σ !!! l) x)]).
Proof.
  unfold shift, mbind, M_bind, bind, contents, Array_slice, Array_push, emit,
    mret, M_ret, ret, shifted. simpl.
  rewrite !lookup_total_insert_eq, insert_insert_eq. done.
Qed.

Lemma iteration_eq (g : string) (l : loc) (σ : config tf) :
  iteration g l σ =
    match winner (heap σ !!! l) (ext σ) with
    | (Normal winnerIndex, w1) =>
        (Returned (g +:+ getFromCharSet textData winnerIndex,
                   fresh (dom (heap σ)),
                   getFromCharSet textData winnerIndex),
         Config
           (<[fresh (dom (heap σ)) := shifted (heap σ !!! l) winnerIndex]> (heap σ))
           (called (getFromCharSet textData winnerIndex) w1),
         iteration_log (heap σ !!! l) winnerIndex)
    | (Throw, w1) =>
        (Thrown, Config (heap σ) w1, [EPredict (one_hot (heap σ !!! l))])
    end.
Proof.
  unfold iteration, winner, called, iteration_log.
  unfold mbind, M_bind, bind at 1 2 3 4 5 6, contents, emit, call,
    call_throwing, append. simpl.
  destruct (predict model _ _) as [output w1]. simpl.
  destruct (sample _ _ _) as [[winnerIndex|] w2]; simpl; [|done].
  destruct onTextGenerationChar as [f|]; simpl.
  - unfold await, mbind, M_bind, bind, call. simpl.
    destruct (f _ w2) as [promise w3]. simpl.
    by rewrite !lookup_total_insert_eq, insert_insert_eq.
  - by rewrite !lookup_total_insert_eq, insert_insert_eq.
Qed.


Lemma do_while_word (fuel : nat) (g : string) (l : loc) (σ : config tf) :
  ∃ σ', heap σ ⊆ heap σ' ∧
    ext σ' = (word fuel g (heap σ !!! l) (ext σ)).1.2 ∧
    match (word fuel g (heap σ !!! l) (ext σ)).1.1 with
    | Returned (g', window') =>
        ∃ l', do_while fuel g l σ
                = (Returned (g', l'), σ', (word fuel g (heap σ !!! l) (ext σ)).2)
              ∧ heap σ' !!! l' = window'
    | Thrown =>
        do_while fuel g l σ
          = (Thrown, σ', (word fuel g (heap σ !!! l) (ext σ)).2)
    | OutOfFuel =>
        do_while fuel g l σ
          = (OutOfFuel, σ', (word fuel g (heap σ !!! l) (ext σ)).2)
    end.
Proof.
  revert g l σ. induction fuel as [|fuel IH]; intros g l σ.
  { exists σ. by destruct σ. }
  cbn [do_while word]. unfold mbind, M_bind, bind. rewrite iteration_eq.
  destruct (winner (heap σ !!! l) (ext σ)) as [[winnerIndex|] w1]; cbn [fst snd];
    [|by exists (Config (heap σ) w1)].
  set (c := getFromCharSet textData winnerIndex).
  set (σ1 := Config (<[fresh (dom (heap σ)) := shifted (heap σ !!! l) winnerIndex]>
                       (heap σ)) (called c w1)).
  assert (heap σ ⊆ heap σ1) as Hsub by apply alloc_subseteq.
  destruct (negb (JS.test_whitespace c)).
  - destruct (IH (g +:+ c) (fresh (dom (heap σ))) σ1) as (σ' & Hsub' & Hext & Hrun).
    replace (heap σ1 !!! fresh (dom (heap σ)))
      with (shifted (heap σ !!! l) winnerIndex) in Hext, Hrun
      by (symmetry; apply lookup_total_insert_eq).
    change (ext σ1) with (called c w1) in Hext, Hrun.
    destruct (word fuel (g +:+ c) (shifted (heap σ !!! l) winnerIndex) (called c w1))
      as [[r w3] t']. cbn [fst snd] in *.
    exists σ'. split; [by etrans|]. split; [done|].
    destruct r as [[g' window']| |].
    + destruct Hrun as (l' & -> & Hl'). by exists l'.
    + by rewrite Hrun.
    + by rewrite Hrun.
  - exists σ1. cbn [fst snd]. repeat split; [done|].
    exists (fresh (dom (heap σ))). split; [|apply lookup_total_insert_eq].
    unfold mret, M_ret, ret. cbv beta iota zeta. by rewrite app_nil_r.
Qed.

Lemma for_loop_words (fuel i : nat) (rest : list string) (g : string)
    (l : loc) (σ : config tf) :
  ∃ σ', heap σ ⊆ heap σ' ∧
    for_loop fuel i rest g l σ
      = ((words fuel i rest g (heap σ !!! l) (ext σ)).1.1, σ',
         (words fuel i rest g (heap σ !!! l) (ext σ)).2)
    ∧ ext σ' = (words fuel i rest g (heap σ !!! l) (ext σ)).1.2.
Proof.
  revert i g l σ. induction rest as [|letter rest IH]; intros i g l σ.
  { exists σ. by destruct σ. }
  cbn [for_loop words]. unfold letter_log.
  set (x := JS.first (textToIndices textData letter)).
  set (σ1 := Config (<[fresh (dom (heap σ)) := shifted (heap σ !!! l) x]> (heap σ))
                    (ext σ)).
  assert (heap σ ⊆ heap σ1) as Hsub by apply alloc_subseteq.
  assert (heap σ1 !!! fresh (dom (heap σ)) = shifted (heap σ !!! l) x) as Hwin
    by apply lookup_total_insert_eq.
  set (g1 := (if (0 <? i)%nat then g +:+ " " else g) +:+ letter).
  destruct (do_while_word fuel g1 (fresh (dom (heap σ))) σ1)
    as (σ2 & Hsub2 & Hext2 & Hrun2).
  rewrite Hwin in Hext2, Hrun2. change (ext σ1) with (ext σ) in Hext2, Hrun2.
  assert ((generated ← (if (0 <? i)%nat then append g " " else mret g);
           append generated letter) σ
          = (Returned g1, σ, (if (0 <? i)%nat then [EAppend " "] else [])
                         ++ [EAppend letter])) as Hletter.
  { unfold g1. by destruct (0 <? i)%nat. }
  rewrite <- bind_assoc_run.
  erewrite bind_some by exact Hletter.
  erewrite bind_some by apply shift_eq.
  fold σ1. unfold mbind at 1, M_bind at 1, bind at 1.
  destruct (word fuel g1 (shifted (heap σ !!! l) x) (ext σ)) as [[r w1] t].
  cbn [fst snd] in *. destruct r as [[g2 window2]| |].
  - destruct Hrun2 as (l2 & -> & Hl2).
    destruct (IH (S i) g2 l2 σ2) as (σ3 & Hsub3 & Hrun3 & Hext3).
    rewrite Hl2, Hext2 in Hrun3, Hext3. cbn [fst snd]. rewrite Hrun3.
    destruct (words fuel (S i) rest g2 window2 w1) as [[r3 w3] t3].
    cbn [fst snd] in *. exists σ3. split; [by do 2 etrans|].
    split; [|done]. by rewrite <- !app_assoc.
  - rewrite Hrun2. exists σ2. cbn [fst snd]. split; [by etrans|].
    split; [|done]. by rewrite <- !app_assoc.
  - rewrite Hrun2. exists σ2. cbn [fst snd]. split; [by etrans|].
    split; [|done]. by rewrite <- !app_assoc.
Qed.

(** A run of [generateText] is the run of [words] on the contents of the
    seed array; the heap it leaves extends the one it found. *)
Lemma generateText_words (fuel : nat) (l : loc) (letters : list string)
    (σ : config tf) :
  ∃ σ', heap σ ⊆ heap σ' ∧
    generateText fuel l letters σ
      = ((words fuel 0 letters "" (heap σ !!! l) (ext σ)).1.1, σ',
         (words fuel 0 letters "" (heap σ !!! l) (ext σ)).2)
    ∧ ext σ' = (words fuel 0 letters "" (heap σ !!! l) (ext σ)).1.2.
Proof.
  unfold generateText, mbind, M_bind, bind, Array_slice. cbn [drop].
  set (σ1 := Config (<[fresh (dom (heap σ)) := heap σ !!! l]> (heap σ)) (ext σ)).
  destruct (for_loop_words fuel 0 letters "" (fresh (dom (heap σ))) σ1)
    as (σ' & Hsub & Hrun & Hext).
  replace (heap σ1 !!! fresh (dom (heap σ))) with (heap σ !!! l) in Hrun, Hext
    by (symmetry; apply lookup_total_insert_eq).
  change (ext σ1) with (ext σ) in Hrun, Hext.
  exists σ'. split; [etrans; [apply alloc_subseteq|exact Hsub]|].
  change (drop 0 (heap σ !!! l)) with (heap σ !!! l). fold σ1. by rewrite Hrun.
Qed.


(** ** Induction over the log of a run *)

Lemma shifted_length (window : list elem) (x : elem) :
  window ≠ [] → length (shifted window x) = length window.
Proof.
  intros H. unfold shifted. rewrite length_app, length_drop. simpl.
  destruct window; [done|]. simpl. lia.
Qed.

Lemma shifted_nonempty (window : list elem) (x : elem) : shifted window x ≠ [].
Proof. unfold shifted. by destruct (drop 1 window). Qed.

Section LogInduction.

(** [I] holds of every window of the run, [R] of every stretch of its log. *)
Variable I : list elem → Prop.
Variable R : list (event tf) → Prop.
Hypothesis R_nil : R [].
Hypothesis R_app : ∀ t1 t2, R t1 → R t2 → R (t1 ++ t2).
Hypothesis I_shifted : ∀ window x, I window → I (shifted window x).
Hypothesis R_letter : ∀ i letter window, I window → R (letter_log i letter window).
Hypothesis R_iteration : ∀ window i, I window → R (iteration_log window i).

(** The log of a run is complete steps, of which [R] holds, and, when the
    run threw, the call of the model that came before the error. *)
Lemma word_log_ind (fuel : nat) (g : string) (window : list elem) (w : world tf) :
  I window →
  (∃ t0 window0, I window0 ∧ R t0
     ∧ (word fuel g window w).2
       = t0 ++ thrown_tail (word fuel g window w).1.1 window0)
  ∧ ∀ g' window', (word fuel g window w).1.1 = Returned (g', window') → I window'.
Proof.
  revert g window w. induction fuel as [|fuel IH]; intros g window w HI.
  { split; [|done]. exists [], window. split_and!; [done|apply R_nil|done]. }
  cbn [word]. destruct (winner window w) as [[winnerIndex|] w1].
  - destruct (negb _).
    + destruct (IH (g +:+ getFromCharSet textData winnerIndex)
                  (shifted window winnerIndex)
                  (called (getFromCharSet textData winnerIndex) w1))
        as [(t0 & window0 & HI0 & HR & Ht) Hw]; [by apply I_shifted|].
      destruct (word fuel _ _ _) as [[r w3] t']. cbn [fst snd] in *.
      split; [|done]. exists (iteration_log window winnerIndex ++ t0), window0.
      split_and!; [done|apply R_app; [by apply R_iteration|done]|].
      by rewrite Ht, app_assoc.
    + cbn [fst snd]. split.
      * exists (iteration_log window winnerIndex), window.
        split_and!; [done|by apply R_iteration|by rewrite app_nil_r].
      * intros g' window' [= <- <-]. by apply I_shifted.
  - cbn [fst snd]. split; [|done]. exists [], window.
    split_and!; [done|apply R_nil|done].
Qed.

Lemma words_log_ind (fuel i : nat) (rest : list string) (g : string)
    (window : list elem) (w : world tf) :
  I window →
  ∃ t0 window0, I window0 ∧ R t0
    ∧ (words fuel i rest g window w).2
      = t0 ++ thrown_tail (words fuel i rest g window w).1.1 window0.
Proof.
  revert i g window w. induction rest as [|letter rest IH]; intros i g window w HI.
  { exists [], window. split_and!; [done|apply R_nil|done]. }
  cbn [words].
  set (g1 := (if (0 <? i)%nat then g +:+ " " else g) +:+ letter).
  set (x := JS.first (textToIndices textData letter)).
  destruct (word_log_ind fuel g1 (shifted window x) w)
    as [(t0 & window0 & HI0 & HR & Ht) Hw]; [by apply I_shifted|].
  destruct (word fuel g1 (shifted window x) w) as [[[[g2 window2]| |] w1] t];
    cbn [fst snd thrown_tail] in *.
  - destruct (IH (S i) g2 window2 w1 (Hw _ _ eq_refl))
      as (t1 & window1 & HI1 & HR1 & Ht1).
    destruct (words fuel (S i) rest g2 window2 w1) as [[r w2] t'].
    cbn [fst snd] in *. exists (letter_log i letter window ++ t0 ++ t1), window1.
    split_and!; [done|apply R_app; [by apply R_letter|by apply R_app]|].
    rewrite Ht, Ht1, app_nil_r. by rewrite <- !app_assoc.
  - exists (letter_log i letter window ++ t0), window0.
    split_and!; [done|apply R_app; [by apply R_letter|done]|].
    by rewrite Ht, app_assoc.
  - exists (letter_log i letter window ++ t0), window0.
    split_and!; [done|apply R_app; [by apply R_letter|done]|].
    by rewrite Ht, app_assoc.
Qed.

(** When [R] holds of that call too, it holds of the log of any run. *)
Lemma words_log_all (fuel i : nat) (rest : list string) (g : string)
    (window : list elem) (w : world tf) :
  (∀ window, I window → R [EPredict (one_hot window)]) →
  I window → R (words fuel i rest g window w).2.
Proof.
  intros R_thrown HI.
  destruct (words_log_ind fuel i rest g window w HI)
    as (t0 & window0 & HI0 & HR & ->).
  destruct (words fuel i rest g window w).1.1; cbn [thrown_tail];
    [by rewrite app_nil_r|apply R_app; [done|by apply R_thrown]
    |by rewrite app_nil_r].
Qed.

End LogInduction.


(** ** Facts read off the log *)







Lemma no_call_before_append (t : list (event tf)) :
  (∀ c, EOnChar c ∉ t) → called_before_append t.
Proof.
  intros H pre c post ->. destruct (H c). rewrite elem_of_app, elem_of_cons. auto.
Qed.

Lemma called_before_append_app (t1 t2 : list (event tf)) :
  called_before_append t1 → called_before_append t2 →
  called_before_append (t1 ++ t2).
Proof.
  intros H1 H2 pre c post Heq.
  apply app_eq_inv in Heq as [(k & -> & Hk)|(k & -> & ->)].
  - destruct k as [|e k]; simplify_eq/=.
    + destruct (H2 [] c post eq_refl) as [(pre' & i & Hpre & _) _].
      by destruct pre'.
    + destruct (H1 pre c k eq_refl)
        as [Hpre (before & newest & after & post' & ->)].
      split; [done|]. by exists before, newest, after, (post' ++ t2).
  - destruct (H2 k c post eq_refl) as [(pre' & i & -> & Hc) Hpost].
    split; [|done]. exists (t1 ++ pre'), i. by rewrite <- app_assoc.
Qed.

Lemma called_before_append_letter (i : nat) (letter : string) (window : list elem) :
  called_before_append (letter_log i letter window).
Proof.
  apply no_call_before_append. intros c Hin%list_elem_of_In.
  unfold letter_log in Hin. destruct (0 <? i)%nat; simpl in Hin; intuition congruence.
Qed.

Lemma called_before_append_iteration (window : list elem) (i : elem) :
  called_before_append (iteration_log window i).
Proof.
  unfold iteration_log. destruct onTextGenerationChar as [f|].
  - intros pre c post Heq.
    destruct pre as [|e1 [|e2 [|e3 [|e4 [|e5 [|e6 pre]]]]]]; simplify_eq/=.
    split; [by exists [EPredict (one_hot window)], i|]. by eexists _, _, _, [].
  - apply no_call_before_append. intros c Hin%list_elem_of_In.
    simpl in Hin. intuition congruence.
Qed.

Lemma generateText_called_before_append (fuel : nat) (l : loc)
    (letters : list string) (σ : config tf) :
  called_before_append (generateText fuel l letters σ).2.
Proof.
  destruct (generateText_words fuel l letters σ) as (σ' & _ & -> & _).
  cbn [snd]. apply words_log_all with (I := λ _, True); try done.
  - by intros pre c post Heq%app_cons_not_nil.
  - apply called_before_append_app.
  - intros. apply called_before_append_letter.
  - intros. apply called_before_append_iteration.
  - intros window _. apply no_call_before_append.
    intros c Hin%list_elem_of_In. simpl in Hin. intuition congruence.
Qed.

Lemma shifts_keep_length_app (n : nat) (t1 t2 : list (event tf)) :
  shifts_keep_length n t1 → shifts_keep_length n t2 →
  shifts_keep_length n (t1 ++ t2).
Proof. intros H1 H2 b x a [?|?]%elem_of_app; auto. Qed.

Lemma shifts_keep_length_letter (n i : nat) (letter : string) (window : list elem) :
  length window = n ∧ window ≠ [] →
  shifts_keep_length n (letter_log i letter window).
Proof.
  intros [Hn Hne] b x a Hin. unfold letter_log in Hin.
  assert (@EShift tf b x a
            = EShift window (JS.first (textToIndices textData letter))
                (shifted window (JS.first (textToIndices textData letter)))) as Heq
    by (apply list_elem_of_In in Hin; destruct (0 <? i)%nat; simpl in Hin;
        intuition congruence).
  simplify_eq. split; [done|]. by rewrite shifted_length.
Qed.

Lemma shifts_keep_length_iteration (n : nat) (window : list elem) (i : elem) :
  length window = n ∧ window ≠ [] →
  shifts_keep_length n (iteration_log window i).
Proof.
  intros [Hn Hne] b x a Hin. unfold iteration_log in Hin.
  assert (@EShift tf b x a = EShift window i (shifted window i)) as Heq
    by (apply list_elem_of_In in Hin; destruct onTextGenerationChar;
        simpl in Hin; intuition congruence).
  simplify_eq. split; [done|]. by rewrite shifted_length.
Qed.

Lemma generateText_shifts_keep_length (fuel : nat) (l : loc)
    (letters : list string) (σ : config tf) :
  heap σ !!! l ≠ [] →
  shifts_keep_length (length (heap σ !!! l)) (generateText fuel l letters σ).2.
Proof.
  intros Hne. destruct (generateText_words fuel l letters σ) as (σ' & _ & -> & _).
  cbn [snd].
  apply words_log_all
    with (I := λ window, length window = length (heap σ !!! l) ∧ window ≠ []);
    try done.
  - by intros b x a Hin%elem_of_nil.
  - apply shifts_keep_length_app.
  - intros window x [Hn Hw]. split; [by rewrite shifted_length|].
    apply shifted_nonempty.
  - intros. by apply shifts_keep_length_letter.
  - intros. by apply shifts_keep_length_iteration.
  - intros window _ b x a Hin%list_elem_of_In. simpl in Hin. intuition congruence.
Qed.


Lemma append_assoc (a b c : string) : (a +:+ b) +:+ c = a +:+ (b +:+ c).
Proof.
  induction a as [|x a IH]; [done|].
  change (String x ((a +:+ b) +:+ c) = String x (a +:+ b +:+ c)). by rewrite IH.
Qed.

Lemma append_nil_r (a : string) : a +:+ "" = a.
Proof.
  induction a as [|x a IH]; [done|].
  change (String x (a +:+ "") = String x a). by rewrite IH.
Qed.

Lemma spaces_append (a b : string) : spaces (a +:+ b) = (spaces a + spaces b)%nat.
Proof.
  induction a as [|x a IH]; [done|].
  change (spaces (String x (a +:+ b)) = (spaces (String x a) + spaces b)%nat).
  cbn [spaces]. rewrite IH. lia.
Qed.

Lemma samples_iteration (window : list elem) (i : elem) :
  samples (iteration_log window i) = [i].
Proof. unfold iteration_log. by destruct onTextGenerationChar. Qed.

(** A word that ends has appended, to what was generated before, the
    characters of its draws. *)
Lemma word_text (fuel : nat) (g : string) (window : list elem) (w : world tf)
    (g' : string) (window' : list elem) :
  (word fuel g window w).1.1 = Returned (g', window') →
  g' = g +:+ text (samples (word fuel g window w).2).
Proof.
  revert g window w. induction fuel as [|fuel IH]; intros g window w; [done|].
  cbn [word]. destruct (winner window w) as [[winnerIndex|] w1]; [|done].
  destruct (negb _).
  - specialize (IH (g +:+ getFromCharSet textData winnerIndex)
                  (shifted window winnerIndex)
                  (called (getFromCharSet textData winnerIndex) w1)).
    destruct (word fuel _ _ _) as [[r w3] t']. cbn [fst snd] in *.
    intros ->%IH. unfold samples. rewrite omap_app. fold (samples t').
    fold (samples (iteration_log window winnerIndex)).
    rewrite samples_iteration. cbn [app text]. by rewrite append_assoc.
  - cbn [fst snd]. intros [= <- _]. rewrite samples_iteration. cbn [text].
    by rewrite append_nil_r.
Qed.

(** Two initial letters: the log is the first letter, its word, the
    second letter (with the space before it), its word; the string is the
    letters and the characters drawn, with that one space added. *)
Lemma generateText_two_letters (fuel : nat) (l : loc) (a b : string)
    (σ : config tf) (out : string) :
  (generateText fuel l [a; b] σ).1.1 = Returned out →
  ∃ t1 t2 window1,
    (generateText fuel l [a; b] σ).2
      = letter_log 0 a (heap σ !!! l) ++ t1 ++ letter_log 1 b window1 ++ t2
    ∧ out = a +:+ text (samples t1) +:+ " " +:+ b +:+ text (samples t2).
Proof.
  destruct (generateText_words fuel l [a; b] σ) as (σ' & _ & -> & _).
  cbn [fst snd words]. change (0 <? 0)%nat with false. change (0 <? 1)%nat with true.
  cbv iota. change ("" +:+ a) with a.
  pose proof (word_text fuel a
    (shifted (heap σ !!! l) (JS.first (textToIndices textData a))) (ext σ)) as H1.
  destruct (word fuel a _ _) as [[[[g1 window1]| |] w1] t1]; [|done..].
  specialize (H1 g1 window1 eq_refl). cbn [snd] in H1.
  pose proof (word_text fuel ((g1 +:+ " ") +:+ b)
    (shifted window1 (JS.first (textToIndices textData b))) w1) as H2.
  destruct (word fuel ((g1 +:+ " ") +:+ b) _ _) as [[[[g2 window2]| |] w2] t2];
    [|done..].
  specialize (H2 g2 window2 eq_refl). cbn [fst snd] in *.
  intros [= <-]. exists t1, t2, window1. split; [by rewrite app_nil_r|].
  by rewrite H2, H1, !append_assoc.
Qed.


(** ** More fuel changes nothing *)

Lemma word_fuel_mono (n m : nat) (g : string) (window : list elem)
    (w w' : world tf) (r : string * list elem) (t : list (event tf)) :
  n ≤ m → word n g window w = (Returned r, w', t) →
  word m g window w = (Returned r, w', t).
Proof.
  revert m g window w w' r t.
  induction n as [|n IH]; intros m g window w w' r t Hle; [done|].
  destruct m as [|m]; [lia|]. cbn [word].
  destruct (winner window w) as [[winnerIndex|] w1]; [|done].
  destruct (negb _); [|done].
  destruct (word n _ _ _) as [[[r0| |] w3] t'] eqn:Hn; [|done..].
  intros [= <- <- <-]. by rewrite (IH m _ _ _ _ _ _ ltac:(lia) Hn).
Qed.

Lemma words_fuel_mono (n m i : nat) (rest : list string) (g : string)
    (window : list elem) (w w' : world tf) (out : string)
    (t : list (event tf)) :
  n ≤ m → words n i rest g window w = (Returned out, w', t) →
  words m i rest g window w = (Returned out, w', t).
Proof.
  intros Hle. revert i g window w w' out t.
  induction rest as [|letter rest IH]; intros i g window w w' out t; [done|].
  cbn [words].
  destruct (word n _ _ _) as [[[[g2 window2]| |] w1] t1] eqn:Hn; [|done..].
  rewrite (word_fuel_mono n m _ _ _ _ _ _ Hle Hn).
  destruct (words n (S i) rest g2 window2 w1) as [[[r2| |] w2] t2] eqn:Hrest;
    [|done..].
  intros [= <- <- <-]. by rewrite (IH _ _ _ _ _ _ _ Hrest).
Qed.

(** A run that returns with some fuel returns the same string, with the
    same log and the same outside world, with any more fuel. *)
Lemma generateText_fuel_mono (n m : nat) (l : loc) (letters : list string)
    (σ : config tf) (out : string) :
  n ≤ m → (generateText n l letters σ).1.1 = Returned out →
  (generateText m l letters σ).1.1 = Returned out
  ∧ (generateText m l letters σ).2 = (generateText n l letters σ).2
  ∧ ext (generateText m l letters σ).1.2 = ext (generateText n l letters σ).1.2.
Proof.
  intros Hle.
  destruct (generateText_words n l letters σ) as (σn & _ & -> & Hn).
  destruct (generateText_words m l letters σ) as (σm & _ & -> & Hm).
  cbn [fst snd]. rewrite Hn, Hm.
  destruct (words n 0 letters "" (heap σ !!! l) (ext σ)) as [[r w'] t] eqn:Hw.
  cbn [fst snd]. intros ->.
  by rewrite (words_fuel_mono n m _ _ _ _ _ _ _ _ Hle Hw).
Qed.


(** ** Runs that return *)

Lemma pushed_iteration (window : list elem) (i : elem) :
  pushed (iteration_log window i) = [i].
Proof. unfold iteration_log. by destruct onTextGenerationChar. Qed.

Lemma pushed_letter (i : nat) (letter : string) (window : list elem) :
  pushed (letter_log i letter window) = [JS.first (textToIndices textData letter)].
Proof. unfold letter_log. by destruct (0 <? i)%nat. Qed.

Lemma samples_letter (i : nat) (letter : string) (window : list elem) :
  samples (letter_log i letter window) = [].
Proof. unfold letter_log. by destruct (0 <? i)%nat. Qed.

Lemma samples_app (t1 t2 : list (event tf)) :
  samples (t1 ++ t2) = samples t1 ++ samples t2.
Proof. apply omap_app. Qed.

Lemma pushed_app (t1 t2 : list (event tf)) :
  pushed (t1 ++ t2) = pushed t1 ++ pushed t2.
Proof. apply omap_app. Qed.

Lemma is_word_cons (i : elem) (d : list elem) :
  JS.test_whitespace (getFromCharSet textData i) = false →
  is_word d = true → is_word (i :: d) = true.
Proof. intros Hi Hd. destruct d as [|j d]; [done|]. cbn [is_word]. by rewrite Hi. Qed.

Lemma is_word_last (d : list elem) :
  is_word d = true →
  ∃ d' i, d = d' ++ [i] ∧ JS.test_whitespace (getFromCharSet textData i) = true.
Proof.
  induction d as [|i d IH]; [done|]. destruct d as [|j d].
  - intros Hi. by exists [], i.
  - cbn [is_word]. intros [_ Hd]%andb_prop.
    destruct (IH Hd) as (d' & k & -> & Hk). by exists (i :: d'), k.
Qed.

(** The draws of a word that ends make a word; they are what it appends
    and what it pushes. *)
Lemma word_returns (fuel : nat) (g : string) (window : list elem) (w w' : world tf)
    (g' : string) (window' : list elem) (t : list (event tf)) :
  word fuel g window w = (Returned (g', window'), w', t) →
  is_word (samples t) = true ∧ g' = g +:+ text (samples t) ∧ pushed t = samples t.
Proof.
  intros Hrun. split; [|split].
  - revert g window w w' g' window' t Hrun.
    induction fuel as [|fuel IH]; intros g window w w' g' window' t; [done|].
    cbn [word]. destruct (winner window w) as [[winnerIndex|] w1]; [|done].
    pose proof (samples_iteration window winnerIndex) as Hs.
    revert Hs. generalize (iteration_log window winnerIndex). intros it Hs.
    destruct (JS.test_whitespace (getFromCharSet textData winnerIndex)) eqn:Hws;
      cbn [negb].
    + intros [= _ _ _ <-]. rewrite Hs. by cbn [is_word].
    + destruct (word fuel _ _ _) as [[[r0| |] w3] t'] eqn:Hn; [|done..].
      intros [= -> _ <-]. rewrite samples_app, Hs.
      apply is_word_cons; [done|]. by eapply IH.
  - pose proof (word_text fuel g window w g' window') as H.
    rewrite Hrun in H. by apply H.
  - revert g window w w' g' window' t Hrun.
    induction fuel as [|fuel IH]; intros g window w w' g' window' t; [done|].
    cbn [word]. destruct (winner window w) as [[winnerIndex|] w1]; [|done].
    pose proof (samples_iteration window winnerIndex) as Hs.
    pose proof (pushed_iteration window winnerIndex) as Hp.
    revert Hs Hp. generalize (iteration_log window winnerIndex). intros it Hs Hp.
    destruct (negb _).
    + destruct (word fuel _ _ _) as [[[r0| |] w3] t'] eqn:Hn; [|done..].
      intros [= -> _ <-]. rewrite samples_app, pushed_app, Hs, Hp.
      f_equal. by eapply IH.
    + intros [= _ _ _ <-]. by rewrite Hs, Hp.
Qed.

(** A run of the letters that returns has drawn one word for each. *)
Lemma words_returns (fuel i : nat) (rest : list string) (g : string)
    (window : list elem) (w w' : world tf) (out : string) (t : list (event tf)) :
  words fuel i rest g window w = (Returned out, w', t) →
  ∃ ds, length ds = length rest
        ∧ samples t = concat ds
        ∧ forallb is_word ds = true
        ∧ out = g +:+ segments i rest ds
        ∧ pushed t = pushes rest ds.
Proof.
  revert i g window w w' out t.
  induction rest as [|letter rest IH]; intros i g window w w' out t.
  { intros [= <- _ <-]. exists []. by rewrite append_nil_r. }
  cbn [words].
  pose proof (samples_letter i letter window) as Hsl.
  pose proof (pushed_letter i letter window) as Hpl.
  revert Hsl Hpl. generalize (letter_log i letter window). intros lt Hsl Hpl.
  destruct (word fuel _ _ _) as [[[[g2 window2]| |] w1] t1] eqn:Hword; [|done..].
  destruct (words fuel (S i) rest g2 window2 w1) as [[[r2| |] w2] t2] eqn:Hrest;
    [|done..].
  intros [= <- _ <-].
  destruct (word_returns _ _ _ _ _ _ _ _ Hword) as (Hd & -> & Hp).
  destruct (IH _ _ _ _ _ _ _ Hrest) as (ds & Hlen & Hs & Hw & -> & Hps).
  exists (samples t1 :: ds). split_and!.
  - cbn. by rewrite Hlen.
  - by rewrite !samples_app, Hsl, Hs.
  - cbn. by rewrite Hd, Hw.
  - cbn [segments]. destruct (0 <? i)%nat; by rewrite !append_assoc.
  - by rewrite !pushed_app, Hpl, Hp, Hps.
Qed.

Lemma text_snoc (d : list elem) (j : elem) :
  text (d ++ [j]) = text d +:+ getFromCharSet textData j.
Proof.
  induction d as [|k d IH]; cbn [app text]; [by rewrite append_nil_r|].
  by rewrite IH, append_assoc.
Qed.

Lemma segments_last (i : nat) (letters : list string) (ds : list (list elem)) :
  letters ≠ [] → length ds = length letters → forallb is_word ds = true →
  ∃ p j, segments i letters ds = p +:+ getFromCharSet textData j
         ∧ JS.test_whitespace (getFromCharSet textData j) = true
         ∧ last (concat ds) = Some j.
Proof.
  revert i ds. induction letters as [|letter letters IH]; intros i ds; [done|].
  intros _. destruct ds as [|d ds]; [done|]. intros [= Hlen].
  cbn [forallb]. intros [Hd Hds]%andb_prop. cbn [segments concat].
  destruct letters as [|letter2 letters].
  - destruct ds; [|done]. cbn [segments concat]. rewrite app_nil_r.
    destruct (is_word_last d Hd) as (d' & j & -> & Hj).
    exists ((if (0 <? i)%nat then " " else "") +:+ letter +:+ text d'), j.
    split_and!; [|done|apply last_snoc].
    by rewrite text_snoc, append_nil_r, !append_assoc.
  - destruct (IH (S i) ds ltac:(done) Hlen Hds) as (p & j & -> & Hj & Hlast).
    exists ((if (0 <? i)%nat then " " else "") +:+ letter +:+ text d +:+ p), j.
    split_and!; [by rewrite !append_assoc|done|].
    rewrite last_app, Hlast. done.
Qed.



(** ** The window along a run *)

Lemma slide_nil (seed : list elem) : slide seed [] = seed.
Proof. unfold slide. cbn. by rewrite app_nil_r. Qed.

Lemma slide_snoc (seed xs : list elem) (x : elem) :
  seed ≠ [] → shifted (slide seed xs) x = slide seed (xs ++ [x]).
Proof.
  intros Hne. unfold shifted, slide.
  rewrite drop_drop, length_app, app_assoc. cbn [length].
  rewrite (drop_app (seed ++ xs) [x]), length_app.
  replace (length xs + 1 - (length seed + length xs)) with 0
    by (destruct seed; [done|cbn [length]; lia]).
  done.
Qed.

Lemma foldl_shifted_slide (seed xs : list elem) :
  seed ≠ [] → foldl shifted seed xs = slide seed xs.
Proof.
  intros Hne. induction xs as [|x xs IH] using rev_ind; [by rewrite slide_nil|].
  by rewrite foldl_app, IH, <- slide_snoc.
Qed.

Lemma tracks_nil (window : list elem) : tracks window [] window.
Proof. split; [done|]. by intros pre input post Heq%app_cons_not_nil. Qed.

Lemma tracks_app (w w1 w2 : list elem) (t1 t2 : list (event tf)) :
  tracks w t1 w1 → tracks w1 t2 w2 → tracks w (t1 ++ t2) w2.
Proof.
  intros [-> H1] [-> H2]. split; [by rewrite pushed_app, foldl_app|].
  intros pre input post Heq.
  apply app_eq_inv in Heq as [(k & -> & Hk)|(k & -> & ->)].
  - destruct k as [|e k]; simplify_eq/=.
    + rewrite (H2 [] input post eq_refl). by rewrite app_nil_r.
    + by apply (H1 pre input k).
  - rewrite pushed_app, foldl_app. by apply (H2 k input post).
Qed.

Lemma tracks_letter (i : nat) (letter : string) (window : list elem) :
  tracks window (letter_log i letter window)
    (shifted window (JS.first (textToIndices textData letter))).
Proof.
  split; [by rewrite pushed_letter|]. intros pre input post Heq.
  assert (In (EPredict input) (letter_log i letter window)) as Hin
    by (rewrite Heq; apply in_elt).
  unfold letter_log in Hin. destruct (0 <? i)%nat; cbn in Hin; intuition congruence.
Qed.

Lemma tracks_iteration (window : list elem) (i : elem) :
  tracks window (iteration_log window i) (shifted window i).
Proof.
  split; [by rewrite pushed_iteration|]. intros pre input post Heq.
  unfold iteration_log in Heq. destruct pre as [|e pre].
  - by injection Heq as <- _.
  - assert (In (EPredict input) (pre ++ EPredict input :: post)) as Hin
      by apply in_elt.
    injection Heq as _ Heq. rewrite <- Heq in Hin.
    destruct onTextGenerationChar; cbn in Hin; intuition congruence.
Qed.

Lemma tracks_thrown (window : list elem) :
  tracks window [EPredict (one_hot window)] window.
Proof.
  split; [done|]. intros pre input post Heq.
  destruct pre as [|e [|e' pre]]; by simplify_eq/=.
Qed.

Lemma word_tracks (fuel : nat) (g : string) (window : list elem) (w : world tf) :
  ∃ window', tracks window (word fuel g window w).2 window'
    ∧ ∀ g' window'', (word fuel g window w).1.1 = Returned (g', window'') →
        window'' = window'.
Proof.
  revert g window w. induction fuel as [|fuel IH]; intros g window w.
  { exists window. split; [apply tracks_nil|done]. }
  cbn [word]. destruct (winner window w) as [[winnerIndex|] w1];
    [|exists window; split; [apply tracks_thrown|done]].
  pose proof (tracks_iteration window winnerIndex) as Hit.
  destruct (negb _).
  - destruct (IH (g +:+ getFromCharSet textData winnerIndex)
                (shifted window winnerIndex)
                (called (getFromCharSet textData winnerIndex) w1))
      as (window' & Ht & Hw).
    destruct (word fuel _ _ _) as [[r w3] t']. cbn [fst snd] in *.
    exists window'. split; [by eapply tracks_app|done].
  - exists (shifted window winnerIndex). cbn [fst snd]. split; [done|].
    by intros g' window'' [= _ <-].
Qed.

Lemma words_tracks (fuel i : nat) (rest : list string) (g : string)
    (window : list elem) (w : world tf) :
  ∃ window', tracks window (words fuel i rest g window w).2 window'.
Proof.
  revert i g window w. induction rest as [|letter rest IH]; intros i g window w.
  { exists window. apply tracks_nil. }
  cbn [words]. pose proof (tracks_letter i letter window) as Hl.
  set (g1 := (if (0 <? i)%nat then g +:+ " " else g) +:+ letter).
  set (x := JS.first (textToIndices textData letter)) in *.
  destruct (word_tracks fuel g1 (shifted window x) w) as (window1 & Ht & Hw).
  destruct (word fuel g1 (shifted window x) w) as [[[[g2 window2]| |] w1] t];
    cbn [fst snd] in *.
  - rewrite (Hw _ _ eq_refl).
    destruct (IH (S i) g2 window1 w1) as (window' & Ht').
    destruct (words fuel (S i) rest g2 window1 w1) as [[r w2] t'].
    cbn [fst snd] in *. exists window'.
    eapply tracks_app; [done|]. by eapply tracks_app.
  - exists window1. by eapply tracks_app.
  - exists window1. by eapply tracks_app.
Qed.

(** ** The encoding *)

Lemma foldl_ext_in {A B : Type} (f f' : A → B → A) (l : list B) (a : A) :
  (∀ a b, In b l → f a b = f' a b) → foldl f a l = foldl f' a l.
Proof.
  revert a. induction l as [|b l IH]; intros a H; [done|]. cbn [foldl].
  rewrite H by (by left). apply IH. intros a' b' Hb. apply H. by right.
Qed.


Lemma one_hot_take (window : list elem) :
  one_hot window = one_hot (take (sampleLen model) window).
Proof.
  unfold one_hot. f_equal. apply foldl_ext_in. intros buf j Hj.
  apply in_seq in Hj. by rewrite lookup_take_lt by lia.
Qed.

(** ** Counting *)



Lemma generateText_no_callback (fuel : nat) (l : loc)
    (letters : list string) (σ : config tf) :
  onTextGenerationChar = None → calls (generateText fuel l letters σ).2 = [].
Proof.
  intros Hnone. destruct (generateText_words fuel l letters σ) as (σ' & _ & -> & _).
  cbn [snd]. apply words_log_all with (I := λ _, True); try done.
  - intros t1 t2 H1 H2. unfold calls in *. by rewrite omap_app, H1, H2.
  - intros i letter window _. unfold letter_log. by destruct (0 <? i)%nat.
  - intros window i _. unfold iteration_log. by rewrite Hnone.
Qed.

(** ** Runs that are cut short *)

Lemma word_cut_short (fuel : nat) (g : string) (window : list elem)
    (w w' : world tf) (t : list (event tf)) :
  word fuel g window w = (OutOfFuel, w', t) →
  length (samples t) = fuel ∧ unbroken (samples t) = true.
Proof.
  revert g window w w' t.
  induction fuel as [|fuel IH]; intros g window w w' t.
  { by intros [= _ <-]. }
  cbn [word]. destruct (winner window w) as [[winnerIndex|] w1]; [|done].
  pose proof (samples_iteration window winnerIndex) as Hs.
  revert Hs. generalize (iteration_log window winnerIndex). intros it Hs.
  destruct (negb _) eqn:Hws; [|done].
  destruct (word fuel _ _ _) as [[[r0| |] w3] t'] eqn:Hn; [done|done|].
  intros [= _ <-]. destruct (IH _ _ _ _ _ Hn) as [Hlen Hun].
  rewrite samples_app, Hs. cbn [app length]. rewrite Hlen. split; [done|].
  unfold unbroken in *. cbn [forallb]. by rewrite Hws, Hun.
Qed.

Lemma words_cut_short (fuel i : nat) (rest : list string) (g : string)
    (window : list elem) (w w' : world tf) (t : list (event tf)) :
  words fuel i rest g window w = (OutOfFuel, w', t) →
  ∃ before d, samples t = before ++ d ∧ length d = fuel ∧ unbroken d = true.
Proof.
  revert i g window w w' t.
  induction rest as [|letter rest IH]; intros i g window w w' t; [done|].
  cbn [words].
  pose proof (samples_letter i letter window) as Hsl.
  revert Hsl. generalize (letter_log i letter window). intros lt Hsl.
  destruct (word fuel _ _ _) as [[[[g2 window2]| |] w1] t1] eqn:Hword; [|done|].
  - destruct (words fuel (S i) rest g2 window2 w1) as [[[r2| |] w2] t2] eqn:Hrest;
      [done|done|].
    intros [= _ <-]. destruct (IH _ _ _ _ _ _ Hrest) as (before & d & Hs & Hd).
    exists (samples t1 ++ before), d.
    split; [|done]. rewrite !samples_app, Hsl, Hs. cbn [app]. by rewrite app_assoc.
  - intros [= _ <-]. destruct (word_cut_short _ _ _ _ _ _ Hword) as [Hlen Hun].
    exists [], (samples t1). split; [|done]. by rewrite samples_app, Hsl.
Qed.

(** ** The outside world along a run *)

Lemma sample_throw_world (probs : list (entry tf)) (t : float) (w w' : world tf) :
  sample probs t w = (Throw, w') → w' = w.
Proof.
  unfold sample, tf_multinomial. destruct (length _ <? 2)%nat; [by intros [= <-]|].
  by destruct (multinomial _ _ _ _ _ _).
Qed.

Lemma replay_app (t1 t2 : list (event tf)) (s : option (tensor tf) * world tf) :
  replay (t1 ++ t2) s = replay t2 (replay t1 s).
Proof. apply foldl_app. Qed.

Lemma starts_with_draw_app (t1 t2 : list (event tf)) :
  ¬ starts_with_draw t1 → ¬ starts_with_draw t2 → ¬ starts_with_draw (t1 ++ t2).
Proof.
  intros H1 H2 (i & t' & Heq). destruct t1 as [|e t1].
  - apply H2. by exists i, t'.
  - apply H1. simplify_eq/=. by eexists _, _.
Qed.

Lemma draws_replayed_app (s : option (tensor tf) * world tf)
    (t1 t2 : list (event tf)) :
  draws_replayed s t1 → draws_replayed (replay t1 s) t2 →
  ¬ starts_with_draw t2 → draws_replayed s (t1 ++ t2).
Proof.
  intros H1 H2 Hd pre input i post Heq.
  apply app_eq_inv in Heq as [(k & -> & Hk)|(k & -> & ->)].
  - destruct k as [|e [|e' k]]; simplify_eq/=.
    + rewrite app_nil_r in H2. by apply (H2 [] input i post).
    + destruct Hd. by eexists _, _.
    + by apply (H1 pre input i k).
  - rewrite replay_app. by apply (H2 k input i post).
Qed.

Lemma draws_replayed_no_call (s : option (tensor tf) * world tf)
    (t : list (event tf)) :
  (∀ input, EPredict input ∉ t) → draws_replayed s t.
Proof.
  intros H pre input i post ->. destruct (H input).
  rewrite elem_of_app, elem_of_cons. auto.
Qed.

Lemma replay_letter (i : nat) (letter : string) (window : list elem)
    (s : option (tensor tf) * world tf) :
  replay (letter_log i letter window) s = s
  ∧ draws_replayed s (letter_log i letter window)
  ∧ ¬ starts_with_draw (letter_log i letter window).
Proof.
  unfold letter_log. split_and!.
  - by destruct (0 <? i)%nat.
  - apply draws_replayed_no_call. intros input Hin%list_elem_of_In.
    destruct (0 <? i)%nat; simpl in Hin; intuition congruence.
  - intros (j & t' & Heq). by destruct (0 <? i)%nat.
Qed.

Lemma replay_iteration (o : option (tensor tf)) (w w1 : world tf)
    (window : list elem) (i : elem) :
  winner window w = (Normal i, w1) →
  replay (iteration_log window i) (o, w)
    = (Some (predict model (one_hot window) w).1,
       called (getFromCharSet textData i) w1)
  ∧ draws_replayed (o, w) (iteration_log window i)
  ∧ ¬ starts_with_draw (iteration_log window i).
Proof.
  unfold winner, iteration_log, called. intros Hw. split_and!.
  - unfold replay. cbn [app foldl replay_event fst snd].
    destruct (predict model (one_hot window) w) as [output w0].
    cbn [fst snd]. rewrite Hw. cbn [snd].
    destruct onTextGenerationChar as [f|] eqn:Hf;
      cbn [app foldl replay_event fst snd]; rewrite ?Hf;
      [by destruct (f _ w1)|done].
  - intros pre input j post Heq. destruct pre as [|e pre].
    + injection Heq as <- <- _. cbn [replay foldl snd].
      destruct (predict model (one_hot window) w) as [output w0].
      cbn [fst snd]. by rewrite Hw.
    + assert (In (EPredict input) (pre ++ EPredict input :: ESample j :: post))
        as Hin by apply in_elt.
      injection Heq as _ Heq. rewrite <- Heq in Hin.
      destruct onTextGenerationChar; cbn in Hin; intuition congruence.
  - by intros (j & t' & Heq).
Qed.

Lemma replay_thrown (o : option (tensor tf)) (w w1 : world tf)
    (window : list elem) :
  winner window w = (Throw, w1) →
  replay [EPredict (one_hot window)] (o, w)
    = (Some (predict model (one_hot window) w).1, w1)
  ∧ draws_replayed (o, w) [EPredict (one_hot window)]
  ∧ ¬ starts_with_draw [EPredict (one_hot window)].
Proof.
  unfold winner. intros Hw. split_and!.
  - unfold replay. cbn [foldl replay_event fst snd].
    destruct (predict model (one_hot window) w) as [output w0].
    by apply sample_throw_world in Hw as ->.
  - intros pre input j post Heq. destruct pre as [|e [|e' pre]]; by simplify_eq/=.
  - by intros (j & t' & Heq).
Qed.

Lemma word_replay (fuel : nat) (g : string) (window : list elem) (w : world tf)
    (o : option (tensor tf)) :
  ∃ o', replay (word fuel g window w).2 (o, w) = (o', (word fuel g window w).1.2)
    ∧ draws_replayed (o, w) (word fuel g window w).2
    ∧ ¬ starts_with_draw (word fuel g window w).2.
Proof.
  revert g window w o. induction fuel as [|fuel IH]; intros g window w o.
  { exists o. split_and!; [done| |by intros (j & t' & Heq)].
    intros pre input j post Heq. by destruct pre. }
  cbn [word]. destruct (winner window w) as [[winnerIndex|] w1] eqn:Hw.
  - destruct (replay_iteration o w w1 window winnerIndex Hw) as (Hit & Hd & Hn).
    revert Hit Hd Hn. generalize (iteration_log window winnerIndex).
    intros it Hit Hd Hn. destruct (negb _).
    + destruct (IH (g +:+ getFromCharSet textData winnerIndex)
                  (shifted window winnerIndex)
                  (called (getFromCharSet textData winnerIndex) w1)
                  (Some (predict model (one_hot window) w).1))
        as (o' & Hr' & Hd' & Hn').
      destruct (word fuel _ _ _) as [[r w3] t']. cbn [fst snd] in *.
      exists o'. split_and!.
      * by rewrite replay_app, Hit.
      * apply draws_replayed_app; [done|by rewrite Hit|done].
      * by apply starts_with_draw_app.
    + by eexists.
  - destruct (replay_thrown o w w1 window Hw) as (Hit & Hd & Hn). by eexists.
Qed.

Lemma words_replay (fuel i : nat) (rest : list string) (g : string)
    (window : list elem) (w : world tf) (o : option (tensor tf)) :
  ∃ o', replay (words fuel i rest g window w).2 (o, w)
        = (o', (words fuel i rest g window w).1.2)
    ∧ draws_replayed (o, w) (words fuel i rest g window w).2
    ∧ ¬ starts_with_draw (words fuel i rest g window w).2.
Proof.
  revert i g window w o. induction rest as [|letter rest IH]; intros i g window w o.
  { exists o. split_and!; [done| |by intros (j & t' & Heq)].
    intros pre input j post Heq. by destruct pre. }
  cbn [words].
  destruct (replay_letter i letter window (o, w)) as (Hl & Hdl & Hnl).
  revert Hl Hdl Hnl. generalize (letter_log i letter window). intros lt Hl Hdl Hnl.
  set (g1 := (if (0 <? i)%nat then g +:+ " " else g) +:+ letter).
  set (x := JS.first (textToIndices textData letter)).
  destruct (word_replay fuel g1 (shifted window x) w o) as (o1 & Hr1 & Hd1 & Hn1).
  destruct (word fuel g1 (shifted window x) w) as [[[[g2 window2]| |] w1] t];
    cbn [fst snd] in *.
  - destruct (IH (S i) g2 window2 w1 o1) as (o2 & Hr2 & Hd2 & Hn2).
    destruct (words fuel (S i) rest g2 window2 w1) as [[r w2] t'].
    cbn [fst snd] in *. exists o2. split_and!.
    + by rewrite !replay_app, Hl, Hr1.
    + apply draws_replayed_app; [done| |by apply starts_with_draw_app].
      rewrite Hl. apply draws_replayed_app; [done|by rewrite Hr1|done].
    + apply starts_with_draw_app; [done|by apply starts_with_draw_app].
  - exists o1. split_and!.
    + by rewrite replay_app, Hl.
    + apply draws_replayed_app; [done|by rewrite Hl|done].
    + by apply starts_with_draw_app.
  - exists o1. split_and!.
    + by rewrite replay_app, Hl.
    + apply draws_replayed_app; [done|by rewrite Hl|done].
    + by apply starts_with_draw_app.
Qed.

(** The outside world after a run is what the calls of its log, made
    again in their order, leave; and every draw of the log is the one
    [sample] makes in the world that the calls before it have left. *)
Lemma generateText_replay (fuel : nat) (l : loc) (letters : list string)
    (σ : config tf) (o : option (tensor tf)) :
  ext (generateText fuel l letters σ).1.2
  = (replay (generateText fuel l letters σ).2 (o, ext σ)).2
  ∧ draws_replayed (o, ext σ) (generateText fuel l letters σ).2.
Proof.
  destruct (generateText_words fuel l letters σ) as (σ' & _ & -> & Hext).
  cbn [fst snd].
  destruct (words_replay fuel 0 letters "" (heap σ !!! l) (ext σ) o)
    as (o' & Hr & Hd & _).
  split; [by rewrite Hr, Hext|done].
Qed.

End Generator.

(** ** Facts about binary64 comparison *)

Section Binary64.

Lemma SFcompare_Lt_ltb (a b : spec_float) :
  SFcompare a b = Some Lt → SFltb a b = true.
Proof. unfold SFltb. by intros ->. Qed.

Lemma SFcompare_not_nan (a b : spec_float) (c : comparison) :
  SFcompare a b = Some c → a ≠ S754_nan.
Proof. by destruct a. Qed.

Lemma SFeqb_refl (a : spec_float) : a ≠ S754_nan → SFeqb a a = true.
Proof.
  unfold SFeqb. destruct a as [s|s| |s m e]; simpl; try done; try by destruct s.
  intros _. rewrite Z.compare_refl.
  replace (PosDef.Pos.compare_cont Eq m m) with (m ?= m)%positive by done.
  rewrite Pos.compare_refl. by destruct s.
Qed.

(** Comparing equal to a positive finite number is being that number. *)
Lemma SFcompare_Eq_finite (a : spec_float) (m : positive) (e : Z) :
  SFcompare a (S754_finite false m e) = Some Eq → a = S754_finite false m e.
Proof.
  destruct a as [s|s| |s m' e']; simpl; try done; try by destruct s.
  destruct s; [done|].
  destruct (Z.compare_spec e' e) as [->| |]; try done.
  intros [= H]. change ((m' ?= m)%positive = Eq) in H.
  by apply Pos.compare_eq in H as ->.
Qed.

Lemma is_nan_false (x y : float) (c : comparison) :
  SFcompare (Prim2SF x) (Prim2SF y) = Some c → is_nan x = false.
Proof.
  intros H. unfold is_nan. rewrite FloatAxioms.eqb_spec, SFeqb_refl; [done|].
  by eapply SFcompare_not_nan.
Qed.

(** A number that is at most a positive finite number [y] leaves
    [Math.max(x, y)] equal to [y]. *)
Lemma Math_max_below (x y : float) (m : positive) (e : Z) :
  Prim2SF y = S754_finite false m e →
  (x <=? y)%float = true → JS.Math_max x y = y.
Proof.
  intros Hy Hle. rewrite FloatAxioms.leb_spec in Hle. unfold SFleb in Hle.
  destruct (SFcompare (Prim2SF x) (Prim2SF y)) as [c|] eqn:Hc; [|done].
  assert (is_nan y = false) as Hny.
  { unfold is_nan. rewrite FloatAxioms.eqb_spec, SFeqb_refl; [done|]. by rewrite Hy. }
  unfold JS.Math_max. rewrite (is_nan_false _ _ _ Hc), Hny. simpl.
  destruct c; [| |done].
  - rewrite Hy in Hc. apply SFcompare_Eq_finite in Hc.
    rewrite <- Hy in Hc. apply Prim2SF_inj in Hc as ->.
    by repeat case_match.
  - by rewrite FloatAxioms.ltb_spec, (SFcompare_Lt_ltb _ _ Hc).
Qed.


Lemma Prim2SF_lit_1e_6 :
  Prim2SF JS.lit_1e_6 = S754_finite false 4722366482869645 (-72).
Proof. vm_compute. reflexivity. Qed.


End Binary64.

(** The divisor [sample] uses is the floor for every temperature not
    above the floor. *)
Lemma divisor_floor (temperature : float) :
  (temperature <=? JS.lit_1e_6)%float = true →
  JS.Math_max temperature JS.lit_1e_6 = JS.lit_1e_6.
Proof. intros H. eapply Math_max_below; [apply Prim2SF_lit_1e_6 | exact H]. Qed.

Lemma SFcompare_Gt_Lt (a b : spec_float) :
  SFcompare a b = Some Gt → SFcompare b a = Some Lt.
Proof.
  destruct a as [s|s| |s m e], b as [s'|s'| |s' m' e']; unfold SFcompare;
    try destruct s; try destruct s'; try discriminate; try reflexivity.
  - rewrite (Z.compare_antisym e e'). destruct (e ?= e')%Z; cbn [CompOpp];
      try discriminate; try reflexivity.
    change (PosDef.Pos.compare_cont Eq m m') with (m ?= m')%positive.
    change (PosDef.Pos.compare_cont Eq m' m) with (m' ?= m)%positive.
    rewrite (Pos.compare_antisym m m'). by destruct (m ?= m')%positive.
  - rewrite (Z.compare_antisym e e'). destruct (e ?= e')%Z; cbn [CompOpp];
      try discriminate; try reflexivity.
    change (PosDef.Pos.compare_cont Eq m m') with (m ?= m')%positive.
    change (PosDef.Pos.compare_cont Eq m' m) with (m' ?= m)%positive.
    rewrite (Pos.compare_antisym m m'). by destruct (m ?= m')%positive.
Qed.

Lemma is_nan_Prim2SF (x : float) : is_nan x = false → Prim2SF x ≠ S754_nan.
Proof.
  unfold is_nan. rewrite FloatAxioms.eqb_spec. intros H Hnan.
  rewrite Hnan in H. discriminate H.
Qed.

(** A number that is not NaN and not at most a positive finite number
    [y] is what [Math.max(x, y)] gives. *)
Lemma Math_max_above (x y : float) (m : positive) (e : Z) :
  Prim2SF y = S754_finite false m e →
  is_nan x = false → (x <=? y)%float = false → JS.Math_max x y = x.
Proof.
  intros Hy Hnx Hle. rewrite FloatAxioms.leb_spec in Hle. unfold SFleb in Hle.
  assert (is_nan y = false) as Hny.
  { unfold is_nan. rewrite FloatAxioms.eqb_spec, SFeqb_refl; [done|]. by rewrite Hy. }
  assert (SFcompare (Prim2SF x) (Prim2SF y) = Some Gt) as Hc.
  { pose proof (is_nan_Prim2SF x Hnx) as Hx. rewrite Hy in Hle |- *.
    destruct (Prim2SF x) as [s|s| |s m' e']; [| |done|];
      destruct (SFcompare _ _) as [[]|] eqn:Hcmp; try discriminate Hle;
      try reflexivity; destruct s; discriminate Hcmp. }
  unfold JS.Math_max. rewrite Hnx, Hny. cbn [orb].
  rewrite !FloatAxioms.ltb_spec. unfold SFltb.
  by rewrite Hc, (SFcompare_Gt_Lt _ _ Hc).
Qed.

(** [Math.max(temperature, 1e-6)] in full. *)
Lemma divisor_cases (temperature : float) :
  JS.Math_max temperature JS.lit_1e_6
  = if is_nan temperature then nan
    else if (temperature <=? JS.lit_1e_6)%float then JS.lit_1e_6
    else temperature.
Proof.
  destruct (is_nan temperature) eqn:Hn.
  { unfold JS.Math_max. by rewrite Hn. }
  destruct (temperature <=? JS.lit_1e_6)%float eqn:Hle.
  - by apply divisor_floor.
  - eapply Math_max_above; [apply Prim2SF_lit_1e_6|done|done].
Qed.

(** ** The sampler in exact arithmetic *)

Section ExactSampler.

Import Number Exact.






Lemma running_length (acc : number) (p : list number) :
  length (running acc p) = length p.
Proof. revert acc. induction p as [|a p IH]; intros acc; cbn; [done|]. by rewrite IH. Qed.

(** The scan stops at an event of the table, or gives the last one. *)
Lemma first_above_bound (r : R) (c : list number) (event last : nat) :
  first_above r c event last = last
  ∨ event ≤ first_above r c event last < event + length c.
Proof.
  revert event. induction c as [|a c IH]; intros event;
    cbn [first_above length]; [by left|].
  destruct (ltb (Finite r) a); [right; lia|].
  destruct (IH (S event)) as [->|?]; [by left|right; lia].
Qed.



(** An index drawn is an index of the logits, whatever the logits hold. *)
Lemma draw_bound (p : list number) (r : R) : p ≠ [] → draw p r < length p.
Proof.
  intros Hne. unfold draw, cdf. rewrite running_length, length_take.
  assert (0 < length p) as Hlen by (destruct p; [done|cbn; lia]).
  destruct (first_above_bound r
              (running (Finite 0) (take (length p - 1) p)) 0
              ((length p - 1) `min` length p)) as [->|H]; [lia|].
  rewrite running_length, length_take in H. lia.
Qed.

Lemma softmax_length (logits : list number) :
  length (softmax logits) = length logits.
Proof. unfold softmax. by rewrite !length_fmap. Qed.

(** With two outcomes or more [sample] returns: the index of one draw on
    the softmax of the logits, with the first number of the generator
    seeded by the next value of [Math.random]. *)
Lemma sample_exact (alea : float → nat → R) (probs : list number)
    (temperature : float) (w : nat → float) :
  2 ≤ length probs →
  @sample (backend alea) probs temperature w
  = (Normal (Some (Z.of_nat
       (draw (softmax (@tf_div (backend alea) (@tf_log (backend alea) probs)
                         (JS.Math_max temperature JS.lit_1e_6)))
          (alea (w 0) 0)))),
     λ n, w (S n)).
Proof.
  intros Hlen. unfold sample, tf_multinomial.
  assert (length (@tf_div (backend alea) (@tf_log (backend alea) probs)
                    (JS.Math_max temperature JS.lit_1e_6)) = length probs) as Hl
    by (unfold tf_div, tf_log; by rewrite !length_fmap).
  rewrite Hl. destruct (Nat.ltb_spec (length probs) 2) as [?|_]; [lia|]. done.
Qed.











End ExactSampler.

(** ** The generator: the claims *)

(** C7.  With no initial letters [generateText] returns the empty string,
    whatever the fuel, and its log is empty: [model.predict] is never
    called, and the outside world is as it was. *)
Theorem generateText_no_letters (tf : TFjs) (model : Model tf)
    (textData : TextData) (temperature : float)
    (onTextGenerationChar : option (callback tf))
    (fuel : nat) (sentenceIndices : loc) (σ : config tf) :
  let run := generateText model textData temperature onTextGenerationChar
               fuel sentenceIndices [] σ in
  run.1.1 = Returned ""
  ∧ predicts run.2 = []
  ∧ run.2 = []
  ∧ ext run.1.2 = ext σ.
Proof. done. Qed.

(** C6.  The caller's seed array is not changed by [generateText]: after
    the run it holds what it held before, entry for entry and so in
    length.  This is so however the run ends. *)
Theorem generateText_keeps_seed (tf : TFjs) (model : Model tf)
    (textData : TextData) (temperature : float)
    (onTextGenerationChar : option (callback tf))
    (fuel : nat) (sentenceIndices : loc) (initialLetters : list string)
    (σ : config tf) (seed : list elem) :
  heap σ !! sentenceIndices = Some seed →
  let run := generateText model textData temperature onTextGenerationChar
               fuel sentenceIndices initialLetters σ in
  heap run.1.2 !! sentenceIndices = Some seed
  ∧ length (heap run.1.2 !!! sentenceIndices) = length seed.
Proof.
  intros Hseed run.
  destruct (generateText_words model textData temperature onTextGenerationChar
              fuel sentenceIndices initialLetters σ) as (σ' & Hsub & Hrun & _).
  subst run. rewrite Hrun. cbn [fst snd].
  assert (heap σ' !! sentenceIndices = Some seed) as H
    by (by eapply lookup_weaken).
  split; [done|]. by rewrite (lookup_total_correct _ _ _ H).
Qed.

Lemma generateText_keeps_seed_witness :
  let run := generateText Fixture.model Fixture.textData 0.5%float
               (Some Fixture.onChar) 10 1%positive ["h"; "w"]
               (Fixture.start [2; 3; 2; 4]%Z) in
  run.1.1 = Returned ("hi  wi" +:+ String "010" "")
  ∧ heap run.1.2 !! 1%positive = Some [Some 0; Some 1; Some 2]%Z
  ∧ length (heap run.1.2 !!! 1%positive) = 3%nat.
Proof.
  split; [by vm_compute|].
  apply (generateText_keeps_seed Fixture.tape Fixture.model Fixture.textData
           0.5%float (Some Fixture.onChar) 10 1%positive ["h"; "w"]
           (Fixture.start [2; 3; 2; 4]%Z) [Some 0; Some 1; Some 2]%Z).
  by vm_compute.
Defined.


(** C3, as the code has it.  With a callback, wherever the log of a run
    shows the invocation on a character [c], the event just before it is
    the draw of [c], and the two events just after it are the append of
    [c] to [generated] and the shift of the window: the callback is
    invoked before [c] is appended and before anything of the next
    iteration.  It is invoked in the outside world that the calls before
    it have left, and the run waits for it: the append, the shift and all
    that follows happen in the world in which the promise returned by the
    invocation has settled, its work done, and the world after the run is
    what the calls of the rest of the log make of that world. *)
Theorem generateText_onChar_before_append (tf : TFjs) (model : Model tf)
    (textData : TextData) (temperature : float)
    (onChar : callback tf)
    (fuel : nat) (sentenceIndices : loc) (initialLetters : list string)
    (σ : config tf) (pre post : list (event tf)) (c : string) :
  let run := generateText model textData temperature (Some onChar)
               fuel sentenceIndices initialLetters σ in
  run.2 = pre ++ EOnChar c :: post →
  (∃ pre' i, pre = pre' ++ [ESample i] ∧ c = getFromCharSet textData i)
  ∧ (∃ before newest after post',
       post = EAppend c :: EShift before newest after :: post')
  ∧ let invoked := replay model temperature (Some onChar) pre (None, ext σ) in
    let promise := (onChar c invoked.2).1 in
    let returned := (onChar c invoked.2).2 in
    ext run.1.2
    = (replay model temperature (Some onChar) post
         (invoked.1, promise returned)).2.
Proof.
  intros run Heq.
  destruct (generateText_called_before_append model textData temperature
              (Some onChar) fuel sentenceIndices initialLetters σ pre c post Heq)
    as [Hbefore Hafter].
  split_and!; [done|done|]. subst run.
  destruct (generateText_replay model textData temperature (Some onChar)
              fuel sentenceIndices initialLetters σ None) as [-> _].
  rewrite Heq, replay_app.
  generalize (replay model temperature (Some onChar) pre (None, ext σ)).
  intros invoked.
  change (replay model temperature (Some onChar) (EOnChar c :: post) invoked)
    with (replay model temperature (Some onChar) post
            (replay_event model temperature (Some onChar) invoked (EOnChar c))).
  cbn [replay_event]. by destruct (onChar c invoked.2).
Qed.

Lemma generateText_onChar_before_append_witness :
  let run := generateText Fixture.model Fixture.textData 0.5%float
               (Some Fixture.onChar) 10 1%positive ["h"] (Fixture.start [3]%Z) in
  let pre := [@EAppend Fixture.tape "h";
              EShift [Some 0; Some 1; Some 2]%Z (Some 0%Z) [Some 1; Some 2; Some 0]%Z;
              @EPredict Fixture.tape [Some 1; Some 2; Some 0]%Z; ESample (Some 3%Z)] in
  let post := [@EAppend Fixture.tape " ";
               EShift [Some 1; Some 2; Some 0]%Z (Some 3%Z)
                 [Some 2; Some 0; Some 3]%Z] in
  (∃ pre' i, pre = pre' ++ [@ESample Fixture.tape i]
             ∧ " " = getFromCharSet Fixture.textData i)
  ∧ (∃ before newest after post',
       post = EAppend " " :: @EShift Fixture.tape before newest after :: post')
  ∧ ext run.1.2 = ([], [" "]).
Proof.
  apply (generateText_onChar_before_append Fixture.tape Fixture.model
           Fixture.textData 0.5%float Fixture.onChar 10 1%positive ["h"]
           (Fixture.start [3]%Z)).
  by vm_compute.
Defined.

(** C3, as the claim has it, fails: the model draws a space after the
    initial letter [h]; the callback is invoked on it right after the
    draw, when [generated] is still ["h"], and the append comes after. *)
Lemma generateText_onChar_not_after_append :
  let run := generateText Fixture.model Fixture.textData 0.5%float
               (Some Fixture.onChar) 10 1%positive ["h"] (Fixture.start [3]%Z) in
  run.1.1 = Returned "h "
  ∧ run.2 = [@EAppend Fixture.tape "h";
             EShift [Some 0; Some 1; Some 2]%Z (Some 0%Z) [Some 1; Some 2; Some 0]%Z;
             @EPredict Fixture.tape [Some 1; Some 2; Some 0]%Z; ESample (Some 3%Z);
             EOnChar " "; EAppend " ";
             EShift [Some 1; Some 2; Some 0]%Z (Some 3%Z) [Some 2; Some 0; Some 3]%Z]
  ∧ ¬ called_after_append run.2.
Proof.
  split; [by vm_compute|]. split; [by vm_compute|]. intros H.
  destruct (H [@EAppend Fixture.tape "h";
               EShift [Some 0; Some 1; Some 2]%Z (Some 0%Z) [Some 1; Some 2; Some 0]%Z;
               @EPredict Fixture.tape [Some 1; Some 2; Some 0]%Z; ESample (Some 3%Z)]
              " "
              [@EAppend Fixture.tape " ";
               EShift [Some 1; Some 2; Some 0]%Z (Some 3%Z) [Some 2; Some 0; Some 3]%Z])
    as (pre' & mid & Hpre & _); [by vm_compute|].
  assert (In (@EAppend Fixture.tape " ") (pre' ++ EAppend " " :: mid)) as Hin
    by (apply in_elt).
  rewrite <- Hpre in Hin. cbn in Hin. intuition discriminate.
Qed.

(** C8.  The window starts as a copy of the seed array, which holds
    [sampleLen] entries and so is not empty.  Every shift of the window in
    a run, however the run ends, drops the oldest entry and appends the
    newest, and finds and leaves a window as long as the seed array. *)
Theorem generateText_window_length (tf : TFjs) (model : Model tf)
    (textData : TextData) (temperature : float)
    (onTextGenerationChar : option (callback tf))
    (fuel : nat) (sentenceIndices : loc) (initialLetters : list string)
    (σ : config tf) :
  heap σ !!! sentenceIndices ≠ [] →
  shifts_keep_length (length (heap σ !!! sentenceIndices))
    (generateText model textData temperature onTextGenerationChar
       fuel sentenceIndices initialLetters σ).2.
Proof. apply generateText_shifts_keep_length. Qed.

Lemma generateText_window_length_witness :
  shifts_keep_length 3
    (generateText Fixture.model Fixture.textData 0.5%float
       (Some Fixture.onChar) 10 1%positive ["h"; "w"]
       (Fixture.start [2; 3; 2; 4]%Z)).2.
Proof.
  apply (generateText_window_length Fixture.tape Fixture.model Fixture.textData
           0.5%float (Some Fixture.onChar) 10 1%positive ["h"; "w"]
           (Fixture.start [2; 3; 2; 4]%Z)).
  by vm_compute.
Defined.

(** C2, as the code has it.  For the initial letters [h] and [w], the log
    of a run that returns is: the letter [h], the first word, the space
    and the letter [w], the second word; and the string returned is [h],
    the characters [g1] drawn for the first word, one space, [w], the
    characters drawn for the second word.  [generateText] itself adds
    exactly that one space; between the two initial letters stand [g1]
    and that space, which hold one space more than [g1] does. *)
Theorem generateText_h_w (tf : TFjs) (model : Model tf)
    (textData : TextData) (temperature : float)
    (onTextGenerationChar : option (callback tf))
    (fuel : nat) (sentenceIndices : loc) (σ : config tf) (out : string) :
  let run := generateText model textData temperature onTextGenerationChar
               fuel sentenceIndices ["h"; "w"] σ in
  run.1.1 = Returned out →
  ∃ t1 t2 window1,
    let g1 := text textData (samples t1) in
    let g2 := text textData (samples t2) in
    run.2 = letter_log textData 0 "h" (heap σ !!! sentenceIndices) ++ t1
            ++ letter_log textData 1 "w" window1 ++ t2
    ∧ out = "h" +:+ g1 +:+ " " +:+ "w" +:+ g2
    ∧ spaces (g1 +:+ " ") = S (spaces g1).
Proof.
  intros run Hout.
  destruct (generateText_two_letters model textData temperature
              onTextGenerationChar fuel sentenceIndices "h" "w" σ out Hout)
    as (t1 & t2 & window1 & Hlog & ->).
  exists t1, t2, window1. split; [done|]. split; [done|].
  rewrite spaces_append. cbn. lia.
Qed.

Lemma generateText_h_w_witness :
  ∃ (t1 t2 : list (event Fixture.tape)) window1,
    (generateText Fixture.model Fixture.textData 0.5%float
       (Some Fixture.onChar) 10 1%positive ["h"; "w"]
       (Fixture.start [2; 4; 2; 3]%Z)).2
    = letter_log Fixture.textData 0 "h" [Some 0; Some 1; Some 2]%Z ++ t1
      ++ letter_log Fixture.textData 1 "w" window1 ++ t2
    ∧ "hi" +:+ String "010" " wi "
      = "h" +:+ text Fixture.textData (samples t1) +:+ " " +:+ "w"
        +:+ text Fixture.textData (samples t2)
    ∧ spaces (text Fixture.textData (samples t1) +:+ " ")
      = S (spaces (text Fixture.textData (samples t1))).
Proof.
  apply (generateText_h_w Fixture.tape Fixture.model Fixture.textData
           0.5%float (Some Fixture.onChar) 10 1%positive
           (Fixture.start [2; 4; 2; 3]%Z)).
  by vm_compute.
Defined.

(** C2, as the claim has it, fails: when the first word ends with a
    space, as it does when the model draws [i] and then a space, that
    space and the one [generateText] adds both stand between the initial
    letters [h] and [w]. *)
Lemma generateText_h_w_two_spaces :
  let run := generateText Fixture.model Fixture.textData 0.5%float
               (Some Fixture.onChar) 10 1%positive ["h"; "w"]
               (Fixture.start [2; 3; 2; 4]%Z) in
  run.1.1 = Returned ("hi  wi" +:+ String "010" "")
  ∧ ¬ one_space_between "h" "w" ("hi  wi" +:+ String "010" "").
Proof.
  split; [by vm_compute|]. intros (g1 & g2 & Heq & Hg1).
  change ("hi  wi" +:+ String "010" "") with ("h" +:+ "i  wi" +:+ String "010" "")
    in Heq.
  apply (inj (String.append "h")) in Heq.
  destruct g1 as [|c1 [|c2 g1]].
  - discriminate Heq.
  - injection Heq as _ Heq. discriminate Heq.
  - injection Heq as <- <- _. cbn in Hg1. lia.
Qed.

(** ** The sampler: the claims *)







(** C5, as the code has it, on the library in exact arithmetic.  For a
    vector of [charSetSize] entries, two or more, whatever they hold, and
    any temperature, [sample] returns an integer from [0] to
    [charSetSize - 1]. *)
Theorem sample_in_range (alea : float → nat → R) (probs : list Number.number)
    (charSetSize : nat) (temperature : float) (w : nat → float) :
  length probs = charSetSize → 2 ≤ charSetSize →
  ∃ i, @sample (Exact.backend alea) probs temperature w
       = (Normal (Some i), λ n, w (S n))
     ∧ (0 <= i <= Z.of_nat charSetSize - 1)%Z.
Proof.
  intros Hlen Hsize. rewrite sample_exact by lia. eexists. split; [done|].
  set (q := Exact.softmax _).
  assert (length q = length probs) as Hq.
  { unfold q. rewrite softmax_length. unfold tf_div, tf_log.
    by rewrite !length_fmap. }
  pose proof (draw_bound q (alea (w 0) 0)) as Hdraw. rewrite Hq in Hdraw.
  assert (q ≠ []) as Hne by (rewrite <- length_zero_iff_nil; lia).
  specialize (Hdraw Hne). lia.
Qed.

Lemma sample_in_range_witness :
  ∃ i, @sample (Exact.backend (λ _ _, (1 / 2)%R))
         [Number.Finite (1 / 4); Number.NaN; Number.PInf] 2%float (λ _, 0%float)
       = (Normal (Some i), λ _, 0%float)
     ∧ (0 <= i <= Z.of_nat 3 - 1)%Z.
Proof.
  apply (sample_in_range (λ _ _, (1 / 2)%R)
           [Number.Finite (1 / 4); Number.NaN; Number.PInf] 3 2%float
           (λ _, 0%float)).
  - reflexivity.
  - lia.
Defined.

(** C5, as the claim has it, fails for a character set of one character:
    the vector [[1]] has [charSetSize] entries, none negative, the
    temperature [1] is above zero, and [sample] throws. *)
Lemma sample_single_character :
  let probs := [Number.Finite 1] in
  let charSetSize := 1 in
  length probs = charSetSize
  ∧ (0 <? 1)%float = true
  ∧ @sample (Exact.backend (λ _ _, 0%R)) probs 1%float (λ _, 0%float)
    = (Throw, λ _, 0%float).
Proof. split_and!; [done|by vm_compute|reflexivity]. Qed.

(** C10.  Two temperatures that are both at most [1e-6] (zero and
    negative ones among them) give, on the same [probs] and from the same
    state of the random source, the same draw and the same state after. *)
Theorem sample_below_floor (tf : TFjs) (probs : list (entry tf))
    (t1 t2 : float) (w : world tf) :
  (t1 <=? JS.lit_1e_6)%float = true →
  (t2 <=? JS.lit_1e_6)%float = true →
  sample probs t1 w = sample probs t2 w.
Proof. intros H1 H2. unfold sample. by rewrite !divisor_floor. Qed.

Lemma sample_below_floor_witness :
  @sample Fixture.tape [0.25; 0.75]%float 0%float ([1]%Z, [])
  = @sample Fixture.tape [0.25; 0.75]%float (-3.5)%float ([1]%Z, []).
Proof.
  apply (sample_below_floor Fixture.tape [0.25; 0.75]%float 0%float (-3.5)%float);
    by vm_compute.
Defined.

(** ** Further properties of the generator *)

(** X1.  A run that returns has drawn one word for each initial letter, in
    order: one or more draws, of which the last and only the last gives a
    character with white space.  The string returned is, letter by letter,
    a space (not before the first letter), the letter, and the characters
    of its word. *)
Theorem generateText_output_shape (tf : TFjs) (model : Model tf)
    (textData : TextData) (temperature : float)
    (onTextGenerationChar : option (callback tf))
    (fuel : nat) (sentenceIndices : loc) (initialLetters : list string)
    (σ : config tf) (out : string) :
  let run := generateText model textData temperature onTextGenerationChar
               fuel sentenceIndices initialLetters σ in
  run.1.1 = Returned out →
  ∃ ds, length ds = length initialLetters
        ∧ samples run.2 = concat ds
        ∧ forallb (is_word textData) ds = true
        ∧ out = segments textData 0 initialLetters ds.
Proof.
  intros run. subst run.
  destruct (generateText_words model textData temperature onTextGenerationChar
              fuel sentenceIndices initialLetters σ) as (σ' & _ & -> & _).
  cbn [fst snd].
  destruct (words _ _ _ _ _ _ _ _ _ _) as [[r w'] t] eqn:Hw. cbn [fst snd].
  intros ->. apply words_returns in Hw as (ds & Hlen & Hs & Hd & Hout & _).
  exists ds. by rewrite Hout.
Qed.

Lemma generateText_output_shape_witness :
  ∃ ds, length ds = length ["h"; "w"]
        ∧ samples (generateText Fixture.model Fixture.textData 0.5%float
                     (Some Fixture.onChar) 10 1%positive ["h"; "w"]
                     (Fixture.start [2; 3; 2; 4]%Z)).2 = concat ds
        ∧ forallb (is_word Fixture.textData) ds = true
        ∧ "hi  wi" +:+ String "010" ""
          = segments Fixture.textData 0 ["h"; "w"] ds.
Proof.
  apply (generateText_output_shape Fixture.tape Fixture.model Fixture.textData
           0.5%float (Some Fixture.onChar) 10 1%positive ["h"; "w"]
           (Fixture.start [2; 3; 2; 4]%Z)).
  by vm_compute.
Defined.

(** X2.  With at least one initial letter, the string returned ends with
    the character of the last draw, and that character holds white space:
    the white space that ends the last word is kept. *)
Theorem generateText_trailing_white_space (tf : TFjs) (model : Model tf)
    (textData : TextData) (temperature : float)
    (onTextGenerationChar : option (callback tf))
    (fuel : nat) (sentenceIndices : loc) (initialLetters : list string)
    (σ : config tf) (out : string) :
  let run := generateText model textData temperature onTextGenerationChar
               fuel sentenceIndices initialLetters σ in
  initialLetters ≠ [] → run.1.1 = Returned out →
  ∃ p j, out = p +:+ getFromCharSet textData j
         ∧ JS.test_whitespace (getFromCharSet textData j) = true
         ∧ last (samples run.2) = Some j.
Proof.
  intros run Hne. subst run.
  destruct (generateText_words model textData temperature onTextGenerationChar
              fuel sentenceIndices initialLetters σ) as (σ' & _ & -> & _).
  cbn [fst snd].
  destruct (words _ _ _ _ _ _ _ _ _ _) as [[r w'] t] eqn:Hw. cbn [fst snd].
  intros ->. apply words_returns in Hw as (ds & Hlen & Hs & Hd & Hout & _).
  destruct (segments_last textData 0 initialLetters ds Hne Hlen Hd)
    as (p & j & Hseg & Hj & Hlast).
  exists p, j. by rewrite Hout, Hseg, Hs.
Qed.

Lemma generateText_trailing_white_space_witness :
  ∃ p j, "hi  wi" +:+ String "010" "" = p +:+ getFromCharSet Fixture.textData j
         ∧ JS.test_whitespace (getFromCharSet Fixture.textData j) = true
         ∧ last (samples (generateText Fixture.model Fixture.textData 0.5%float
                            (Some Fixture.onChar) 10 1%positive ["h"; "w"]
                            (Fixture.start [2; 3; 2; 4]%Z)).2) = Some j.
Proof.
  apply (generateText_trailing_white_space Fixture.tape Fixture.model
           Fixture.textData 0.5%float (Some Fixture.onChar) 10 1%positive
           ["h"; "w"] (Fixture.start [2; 3; 2; 4]%Z)); by vm_compute.
Defined.



(** X4.  When the seed array is not empty, every input given to
    [model.predict] in a run is the encoding of the seed entries followed
    by the entries pushed so far, without as many entries at the front as
    were pushed: the window slides over the seed and what is pushed. *)
Theorem generateText_model_sees_sliding_window (tf : TFjs) (model : Model tf)
    (textData : TextData) (temperature : float)
    (onTextGenerationChar : option (callback tf))
    (fuel : nat) (sentenceIndices : loc) (initialLetters : list string)
    (σ : config tf) (pre post : list (event tf)) (input : tensor tf) :
  heap σ !!! sentenceIndices ≠ [] →
  (generateText model textData temperature onTextGenerationChar
     fuel sentenceIndices initialLetters σ).2 = pre ++ EPredict input :: post →
  input = one_hot model (slide (heap σ !!! sentenceIndices) (pushed pre)).
Proof.
  intros Hne.
  destruct (generateText_words model textData temperature onTextGenerationChar
              fuel sentenceIndices initialLetters σ) as (σ' & _ & -> & _).
  cbn [snd]. intros Heq.
  destruct (words_tracks model textData temperature onTextGenerationChar
              fuel 0 initialLetters "" (heap σ !!! sentenceIndices) (ext σ))
    as (window' & _ & Htrack).
  rewrite (Htrack pre input post Heq). by rewrite foldl_shifted_slide.
Qed.

Lemma generateText_model_sees_sliding_window_witness :
  ([Some 2; Some 0; Some 2]%Z : tensor Fixture.tape)
  = one_hot Fixture.model
      (slide [Some 0; Some 1; Some 2]%Z
         (pushed [@EAppend Fixture.tape "h";
                  EShift [Some 0; Some 1; Some 2]%Z (Some 0%Z)
                    [Some 1; Some 2; Some 0]%Z;
                  @EPredict Fixture.tape [Some 1; Some 2; Some 0]%Z;
                  ESample (Some 2%Z); EOnChar "i"; EAppend "i";
                  EShift [Some 1; Some 2; Some 0]%Z (Some 2%Z)
                    [Some 2; Some 0; Some 2]%Z])).
Proof.
  apply (generateText_model_sees_sliding_window Fixture.tape Fixture.model
           Fixture.textData 0.5%float (Some Fixture.onChar) 10 1%positive ["h"]
           (Fixture.start [2; 3]%Z) _
           [@ESample Fixture.tape (Some 3%Z); EOnChar " "; EAppend " ";
            EShift [Some 2; Some 0; Some 2]%Z (Some 3%Z)
              [Some 0; Some 2; Some 3]%Z]);
    by vm_compute.
Defined.

(** X5.  In a run that returns, the entries pushed on the window are, for
    each initial letter in order, the first index the encoder gives for the
    letter ([undefined] when it gives none) and then the indices drawn for
    the letter's word. *)
Theorem generateText_pushes (tf : TFjs) (model : Model tf)
    (textData : TextData) (temperature : float)
    (onTextGenerationChar : option (callback tf))
    (fuel : nat) (sentenceIndices : loc) (initialLetters : list string)
    (σ : config tf) (out : string) :
  let run := generateText model textData temperature onTextGenerationChar
               fuel sentenceIndices initialLetters σ in
  run.1.1 = Returned out →
  ∃ ds, length ds = length initialLetters
        ∧ samples run.2 = concat ds
        ∧ pushed run.2 = pushes textData initialLetters ds.
Proof.
  intros run. subst run.
  destruct (generateText_words model textData temperature onTextGenerationChar
              fuel sentenceIndices initialLetters σ) as (σ' & _ & -> & _).
  cbn [fst snd].
  destruct (words _ _ _ _ _ _ _ _ _ _) as [[r w'] t] eqn:Hw. cbn [fst snd].
  intros ->. apply words_returns in Hw as (ds & Hlen & Hs & _ & _ & Hp).
  by exists ds.
Qed.

Lemma generateText_pushes_witness :
  ∃ ds, length ds = length ["h"; "?"]
        ∧ samples (generateText Fixture.model Fixture.textData 0.5%float
                     None 10 1%positive ["h"; "?"]
                     (Fixture.start [2; 3; 4]%Z)).2 = concat ds
        ∧ pushed (generateText Fixture.model Fixture.textData 0.5%float
                    None 10 1%positive ["h"; "?"]
                    (Fixture.start [2; 3; 4]%Z)).2
          = pushes Fixture.textData ["h"; "?"] ds.
Proof.
  apply (generateText_pushes Fixture.tape Fixture.model Fixture.textData
           0.5%float None 10 1%positive ["h"; "?"] (Fixture.start [2; 3; 4]%Z)
           ("hi  ?" +:+ String "010" "")).
  by vm_compute.
Defined.

(** X6.  Without a callback ([null]) no run shows an invocation. *)
Theorem generateText_null_callback (tf : TFjs) (model : Model tf)
    (textData : TextData) (temperature : float)
    (fuel : nat) (sentenceIndices : loc) (initialLetters : list string)
    (σ : config tf) :
  calls (generateText model textData temperature None
           fuel sentenceIndices initialLetters σ).2 = [].
Proof. by apply generateText_no_callback. Qed.

(** X7.  No array that is on the heap before the call is changed or
    removed by a run, however it ends: [generateText] writes only to
    arrays it has made itself. *)
Theorem generateText_frame (tf : TFjs) (model : Model tf)
    (textData : TextData) (temperature : float)
    (onTextGenerationChar : option (callback tf))
    (fuel : nat) (sentenceIndices : loc) (initialLetters : list string)
    (σ : config tf) (l : loc) (a : list elem) :
  heap σ !! l = Some a →
  heap (generateText model textData temperature onTextGenerationChar
          fuel sentenceIndices initialLetters σ).1.2 !! l = Some a.
Proof.
  intros Hl.
  destruct (generateText_words model textData temperature onTextGenerationChar
              fuel sentenceIndices initialLetters σ) as (σ' & Hsub & -> & _).
  cbn [fst snd]. by eapply lookup_weaken.
Qed.

Lemma generateText_frame_witness :
  heap (generateText Fixture.model Fixture.textData 0.5%float
          (Some Fixture.onChar) 10 1%positive ["h"; "w"]
          (@Config Fixture.tape
             (<[2%positive := [Some 7%Z]]> (<[1%positive := [Some 0%Z]]> ∅))
             ([2; 3; 2; 4]%Z, []))).1.2 !! 2%positive = Some [Some 7%Z].
Proof.
  apply (generateText_frame Fixture.tape Fixture.model Fixture.textData
           0.5%float (Some Fixture.onChar) 10 1%positive ["h"; "w"]).
  by vm_compute.
Defined.

(** X9.  The encoding reads the entries of the window at the positions
    below [sampleLen] only: a window and its first [sampleLen] entries
    give the model the same input. *)
Theorem one_hot_reads_first_sampleLen (tf : TFjs) (model : Model tf)
    (window : list elem) :
  one_hot model window = one_hot model (take (sampleLen model) window).
Proof. apply one_hot_take. Qed.

(** X10.  A run is cut short, not returning and not throwing, only in an
    inner loop that has run [fuel] times without drawing white space: its
    last [fuel] draws all give characters without white space. *)
Theorem generateText_cut_short (tf : TFjs) (model : Model tf)
    (textData : TextData) (temperature : float)
    (onTextGenerationChar : option (callback tf))
    (fuel : nat) (sentenceIndices : loc) (initialLetters : list string)
    (σ : config tf) :
  let run := generateText model textData temperature onTextGenerationChar
               fuel sentenceIndices initialLetters σ in
  run.1.1 = OutOfFuel →
  ∃ before d, samples run.2 = before ++ d
              ∧ length d = fuel ∧ unbroken textData d = true.
Proof.
  intros run. subst run.
  destruct (generateText_words model textData temperature onTextGenerationChar
              fuel sentenceIndices initialLetters σ) as (σ' & _ & -> & _).
  cbn [fst snd].
  destruct (words _ _ _ _ _ _ _ _ _ _) as [[r w'] t] eqn:Hw. cbn [fst snd].
  intros ->. by apply words_cut_short in Hw.
Qed.

Lemma generateText_cut_short_witness :
  ∃ before d,
    samples (generateText Fixture.model Fixture.textData 0.5%float
               (Some Fixture.onChar) 2 1%positive ["h"; "w"]
               (Fixture.start [2; 3; 2; 2; 2]%Z)).2 = before ++ d
    ∧ length d = 2 ∧ unbroken Fixture.textData d = true.
Proof.
  apply (generateText_cut_short Fixture.tape Fixture.model Fixture.textData
           0.5%float (Some Fixture.onChar) 2 1%positive ["h"; "w"]
           (Fixture.start [2; 3; 2; 2; 2]%Z)).
  by vm_compute.
Defined.

(** ** Further properties of the sampler *)

(** X8.  The number [sample] divides by is the temperature itself when it
    is above [1e-6], [1e-6] when it is at most [1e-6], and NaN when the
    temperature is NaN: [Math.max] gives no floor against NaN.  On two
    entries or more [sample] returns the first index that the kernel of
    [tf.multinomial] draws on these logits; on fewer it throws, with the
    random source as it was. *)
Theorem sample_divisor (tf : TFjs) (probs : list (entry tf))
    (temperature : float) (w : world tf) :
  let divisor := if is_nan temperature then nan
                 else if (temperature <=? JS.lit_1e_6)%float then JS.lit_1e_6
                 else temperature in
  let logits := tf_div (tf_log probs) divisor in
  sample probs temperature w
  = if (length probs <? 2)%nat then (Throw, w)
    else (Normal (JS.first (multinomial tf logits 1 None false w).1),
          (multinomial tf logits 1 None false w).2).
Proof.
  intros divisor logits. unfold sample, tf_multinomial. rewrite divisor_cases.
  fold divisor. fold logits.
  replace (length logits) with (length probs)
    by (unfold logits, tf_div, tf_log; by rewrite !length_fmap).
  destruct (length probs <? 2)%nat; [done|].
  by destruct (multinomial tf logits 1 None false w).
Qed.
